(** * droppr: the sending side of a drop (client/src/models/Dropper.js)

    A shallow embedding of the two classes of [Dropper.js]:
    - [FileStream], which sends one file through one data channel, driven by
      the channel's 'open' and 'bufferedamountlow' events;
    - [Dropper], which owns one [FileStream] per file, relays the peer's
      events and waits for every stream to finish.

    JavaScript objects are records, the mutation of [this] is explicit state
    passing, [try]/[catch] is a small state-and-exception monad, and the one
    [await] of [_sendMessage] splits the handler into the part that runs
    when the event fires and the part that runs when the awaited read
    settles. *)

From stdpp Require Import base list strings pretty.
From Stdlib Require Import ZArith Lia Ascii.
From Stdlib Require Init.Byte.

Open Scope Z_scope.

(** ** JSON.stringify, for the values this file serialises *)

Module JSON.

#[local] Unset Elimination Schemes.
Inductive value :=
| Str (s : string)
| Num (n : Z)
| Obj (members : list (string * value)).
#[local] Set Elimination Schemes.

Definition dquote : ascii := Ascii.ascii_of_nat 34.
Definition backslash : ascii := Ascii.ascii_of_nat 92.

Definition hex_digit (n : N) : ascii :=
  if (n <? 10)%N then Ascii.ascii_of_N (48 + n) else Ascii.ascii_of_N (87 + n).

(** One code unit of QuoteJSONString: the two-character escapes, [\u00XX]
    for the other control characters, the character itself otherwise. *)
Definition escape (c : ascii) : string :=
  let n := Ascii.N_of_ascii c in
  if (n =? 8)%N then String backslash "b"
  else if (n =? 9)%N then String backslash "t"
  else if (n =? 10)%N then String backslash "n"
  else if (n =? 12)%N then String backslash "f"
  else if (n =? 13)%N then String backslash "r"
  else if (n =? 34)%N then String backslash (String dquote "")
  else if (n =? 92)%N then String backslash (String backslash "")
  else if (n <? 32)%N then
    String backslash
      (String "u" (String "0" (String "0"
        (String (hex_digit (n / 16)) (String (hex_digit (n mod 16)) "")))))
  else String c "".

Fixpoint escape_all (s : string) : string :=
  match s with
  | EmptyString => ""
  | String c s' => escape c +:+ escape_all s'
  end.

Definition quote (s : string) : string :=
  String dquote (escape_all s +:+ String dquote "").

Fixpoint stringify (v : value) : string :=
  match v with
  | Str s => quote s
  | Num n => pretty n
  | Obj members =>
      "{" +:+ String.concat ","
                (map (fun kv => quote (fst kv) +:+ ":" +:+ stringify (snd kv))
                     members)
          +:+ "}"
  end.

End JSON.

(** ** File: the part of the File API the sender uses *)

(** A Blob, as far as its [arrayBuffer()] goes: its bytes. *)
Abbreviation Blob := (list Byte.byte).

Module File.

Record t := mk {
  name : string;
  type : string;
  bytes : list Byte.byte   (* the contents *)
}.

(** [file.size]: the number of bytes of the contents. *)
Definition size (f : t) : Z := Z.of_nat (length (bytes f)).

(** [file.slice(start, end)] as the File API defines it: a negative
    position counts from the end, both are clamped to the size, and the
    span is empty when the end is not after the start. *)
Definition slice (f : t) (start end_ : Z) : Blob :=
  let relativeStart :=
    if start <? 0 then Z.max (size f + start) 0 else Z.min start (size f) in
  let relativeEnd :=
    if end_ <? 0 then Z.max (size f + end_) 0 else Z.min end_ (size f) in
  let span := Z.max (relativeEnd - relativeStart) 0 in
  take (Z.to_nat span) (drop (Z.to_nat relativeStart) (bytes f)).

End File.

(** ** DataChannel *)

Module DataChannel.

(** What [send] is given: a string or an ArrayBuffer. *)
Inductive Message :=
| Text (s : string)
| Binary (b : list Byte.byte).

(** Modelled from the spec: the DataChannel class of models/Peer.js, which
    is not part of these sources. A channel is labelled, and [send(payload)]
    accepts a text control message or a raw binary payload; the channel is
    ordered, so what it was handed is a list, oldest first. *)
Record t := mk {
  label : string;
  sent : list Message
}.

Definition create (label : string) : t := mk label [].

(** [send] either takes the message or throws; which of the two is up to
    the channel, so each call is told ([accepts]). *)
Definition send (accepts : bool) (dc : t) (m : Message) : option t :=
  if accepts then Some (mk (label dc) (sent dc ++ [m])) else None.

End DataChannel.

Import DataChannel(Message, Text, Binary).

(** ** FileStream - Send a file through a data channel *)

Module FileStream.

(** The values [_state] takes. *)
Inductive State := fileinfo | send | sending | done.

Inductive Error :=
| SendError    (* [_dataChannel.send] threw *)
| ReadError.   (* the promise of [blob.arrayBuffer()] was rejected *)

(** The two lines [_sendMessage] writes to the console. *)
Inductive LogLine :=
| PassingState (st : State)
| ErrorIn (err : Error).

Record t := mk {
  _dataChannel : DataChannel.t;   (* the data channel *)
  _state : State;                 (* the current state *)
  file : File.t;                  (* the file to be sent *)
  label : string;                 (* the data channel label *)
  offset : Z;                     (* the current position in the file *)
  _reads : list Blob;             (* calls of [_sendMessage] suspended at
                                     [await blob.arrayBuffer()], oldest first *)
  dispatched : list string;       (* events this EventTarget has dispatched *)
  console : list LogLine
}.

(** *** The handler monad: [this] as state, exceptions as a result *)

Inductive Completion (A : Type) :=
| Normal (a : A)
| Throw (err : Error).
Arguments Normal {A} a.
Arguments Throw {A} err.

Definition Handler (A : Type) : Type := t → Completion A * t.

#[export] Instance Handler_ret : MRet Handler :=
  λ A (a : A) this, (Normal a, this).

#[export] Instance Handler_bind : MBind Handler :=
  λ A B (k : A → Handler B) (m : Handler A) this,
    match m this with
    | (Normal a, this') => k a this'
    | (Throw err, this') => (Throw err, this')
    end.

Definition throw {A} (err : Error) : Handler A := λ this, (Throw err, this).

(** [try { body } catch (err) { handler err }], as the whole of a handler:
    what is left is the new [this]. *)
Definition try_catch (body : Handler unit) (handler : Error → Handler unit)
  : t → t :=
  λ this,
    match body this with
    | (Normal _, this') => this'
    | (Throw err, this') => snd (handler err this')
    end.

Definition get {A} (field : t → A) : Handler A := λ this, (Normal (field this), this).

Definition modify (f : t → t) : Handler unit := λ this, (Normal (), f this).

(** Assignments to the fields of [this]. *)
Definition with_dataChannel (dc : DataChannel.t) (this : t) : t :=
  mk dc (_state this) (file this) (label this) (offset this)
     (_reads this) (dispatched this) (console this).

Definition with_state (st : State) (this : t) : t :=
  mk (_dataChannel this) st (file this) (label this) (offset this)
     (_reads this) (dispatched this) (console this).

Definition with_offset (n : Z) (this : t) : t :=
  mk (_dataChannel this) (_state this) (file this) (label this) n
     (_reads this) (dispatched this) (console this).

Definition with_reads (rs : list Blob) (this : t) : t :=
  mk (_dataChannel this) (_state this) (file this) (label this) (offset this)
     rs (dispatched this) (console this).

Definition logged (line : LogLine) (this : t) : t :=
  mk (_dataChannel this) (_state this) (file this) (label this) (offset this)
     (_reads this) (dispatched this) (console this ++ [line]).

Definition set_state (st : State) : Handler unit := modify (with_state st).
Definition set_offset (n : Z) : Handler unit := modify (with_offset n).
Definition console_log (line : LogLine) : Handler unit := modify (logged line).

(** [this._dataChannel.send(m)] *)
Definition dataChannel_send (accepts : bool) (m : Message) : Handler unit :=
  λ this,
    match DataChannel.send accepts (_dataChannel this) m with
    | Some dc => (Normal (), with_dataChannel dc this)
    | None => (Throw SendError, this)
    end.

(** [await blob.arrayBuffer()], up to the suspension: the read is started
    and the call waits for it behind the reads started before. *)
Definition await_arrayBuffer (blob : Blob) : Handler unit :=
  modify (λ this, with_reads (_reads this ++ [blob]) this).

(** The value of the [await] once the read has settled: [Some] the buffer,
    or [None] when the promise was rejected, which throws. *)
Definition awaited (result : option (list Byte.byte)) : Handler (list Byte.byte) :=
  match result with
  | Some buffer => mret buffer
  | None => throw ReadError
  end.

(** [JSON.stringify(packet)] of the 'fileinfo' case. *)
Definition packet (f : File.t) : JSON.value :=
  JSON.Obj
    [("type", JSON.Str "fileinfo");
     ("fileinfo",
      JSON.Obj [("name", JSON.Str (File.name f));
                ("size", JSON.Num (File.size f));
                ("type", JSON.Str (File.type f))])].

(** The literal the 'send' case sends when the file is through. *)
Definition done_message : string :=
  "{" +:+ JSON.quote "type" +:+ ":" +:+ JSON.quote "done" +:+ "}".

Section WithMessageSize.

(** [_messageSize]: what [parseInt] made of the setting in the environment
    when the module was loaded, an integer of either sign. ([NaN], its
    result for a setting that is missing or is no number, is not covered.) *)
Variable _messageSize : Z.

(** [_sendMessage], from its call to the [await] or to its end. *)
Definition _sendMessage (accepts : bool) : t → t :=
  try_catch
    (st ← get _state;
     match st with
     | fileinfo =>
         f ← get file;
         dataChannel_send accepts (Text (JSON.stringify (packet f)));;
         set_state send
     | send =>
         off ← get offset;
         f ← get file;
         if off >=? File.size f then
           dataChannel_send accepts (Text done_message);;
           set_state done
         else
           set_state sending;;
           let end_ := Z.min (off + _messageSize) (File.size f) in
           let blob := File.slice f off end_ in
           set_offset end_;;
           await_arrayBuffer blob
     | _ => console_log (PassingState st)
     end)
    (λ err, console_log (ErrorIn err)).

(** [_sendMessage], from the [await] on: the same [try] block. *)
Definition _sendMessage_resume (result : option (list Byte.byte)) (accepts : bool)
  : t → t :=
  try_catch
    (buffer ← awaited result;
     dataChannel_send accepts (Binary buffer);;
     set_state send)
    (λ err, console_log (ErrorIn err)).

(** [constructor(peer, file)]; [uuid] is what [uuid.v4()] returned. *)
Definition new (uuid : string) (file : File.t) : t :=
  mk (DataChannel.create uuid) fileinfo file uuid 0 [] [] [].

(** What happens to a FileStream. Both channel events are bound to
    [_sendMessage]; a suspended call is resumed when its read settles. *)
Inductive ChannelEvent := open | bufferedamountlow.

Inductive Event :=
| Fire (e : ChannelEvent) (accepts : bool)
    (* the channel dispatches [e]; [accepts]: the [send] of this call, if it
       makes one, does not throw *)
| Fulfil (n : nat) (accepts : bool)
    (* the read of the n-th suspended call yields its bytes *)
| Reject (n : nat).
    (* the read of the n-th suspended call fails *)

Definition step (this : t) (ev : Event) : t :=
  match ev with
  | Fire _ accepts => _sendMessage accepts this
  | Fulfil n accepts =>
      match _reads this !! n with
      | Some blob =>
          _sendMessage_resume (Some blob) accepts
            (with_reads (delete n (_reads this)) this)
      | None => this
      end
  | Reject n =>
      match _reads this !! n with
      | Some _ =>
          _sendMessage_resume None true
            (with_reads (delete n (_reads this)) this)
      | None => this
      end
  end.

Definition run (this : t) (evs : list Event) : t := foldl step this evs.

End WithMessageSize.

End FileStream.

(** ** Dropper - Send files *)

Module Dropper.

(** An entry of [fileinfo]. *)
Record FileInfo := mkFileInfo {
  name : string;
  size : Z;
  type : string
}.

Inductive PromiseState := Pending | Fulfilled | Rejected.

#[export] Instance PromiseState_eq_dec : EqDecision PromiseState.
Proof. solve_decision. Defined.

Inductive LogLine :=
| ErrorInAwait.   (* "Dropper: Error in _awaitFileStreams: ..." *)

Record t := mk {
  _fileStreams : list FileStream.t;   (* open file streams *)
  id : option string;                 (* drop identifier, undefined at first *)
  fileinfo : list FileInfo;           (* information about the files *)
  totalSize : Z;                      (* total size of files *)
  _promises : list PromiseState;      (* the promises of [_awaitFileStreams],
                                         one per file stream *)
  _awaiting : bool;                   (* [_awaitFileStreams] is suspended at
                                         [await Promise.all(promises)] *)
  dispatched : list string;           (* events this EventTarget has dispatched *)
  console : list LogLine
}.

Definition dispatchEvent (event : string) (this : t) : t :=
  mk (_fileStreams this) (id this) (fileinfo this) (totalSize this)
     (_promises this) (_awaiting this) (dispatched this ++ [event]) (console this).

Definition console_log (line : LogLine) (this : t) : t :=
  mk (_fileStreams this) (id this) (fileinfo this) (totalSize this)
     (_promises this) (_awaiting this) (dispatched this) (console this ++ [line]).

Definition set_id (data : string) (this : t) : t :=
  mk (_fileStreams this) (Some data) (fileinfo this) (totalSize this)
     (_promises this) (_awaiting this) (dispatched this) (console this).

Definition set_fileStreams (l : list FileStream.t) (this : t) : t :=
  mk l (id this) (fileinfo this) (totalSize this)
     (_promises this) (_awaiting this) (dispatched this) (console this).

Definition set_promises (ps : list PromiseState) (this : t) : t :=
  mk (_fileStreams this) (id this) (fileinfo this) (totalSize this)
     ps (_awaiting this) (dispatched this) (console this).

Definition set_awaiting (b : bool) (this : t) : t :=
  mk (_fileStreams this) (id this) (fileinfo this) (totalSize this)
     (_promises this) b (dispatched this) (console this).

(** One turn of the constructor's loop over [files]; [uuid_v4 k] is what the
    k-th call of [uuid.v4()] returns. *)
Definition start_fileStream (uuid_v4 : nat → string) (this : t) (file : File.t) : t :=
  let fileStream := FileStream.new (uuid_v4 (length (_fileStreams this))) file in
  mk (_fileStreams this ++ [fileStream])
     (id this)
     (fileinfo this ++ [mkFileInfo (File.name file) (File.size file) (File.type file)])
     (totalSize this + File.size file)
     (_promises this) (_awaiting this) (dispatched this) (console this).

(** The resolve function of a promise: it settles a pending promise and does
    nothing to a settled one. The executor of [_awaitFileStreams] is handed a
    reject function too and makes no use of it. *)
Definition resolve (p : PromiseState) : PromiseState :=
  match p with
  | Pending => Fulfilled
  | settled => settled
  end.

(** [Promise.all]: rejected once one of the promises is, fulfilled once all
    of them are. *)
Definition Promise_all (ps : list PromiseState) : PromiseState :=
  if decide (Rejected ∈ ps) then Rejected
  else if decide (Forall (λ p, p = Fulfilled) ps) then Fulfilled
  else Pending.

(** [_awaitFileStreams], up to its [await]: one promise for each stream. *)
Definition _awaitFileStreams (this : t) : t :=
  set_awaiting true (set_promises (map (λ _, Pending) (_fileStreams this)) this).

(** [_awaitFileStreams], from its [await] on, run when [Promise.all] has
    settled: the rest of the [try] block, or the [catch] block. *)
Definition _awaitFileStreams_resume (this : t) : t :=
  if _awaiting this then
    match Promise_all (_promises this) with
    | Pending => this
    | Fulfilled => dispatchEvent "done" (set_awaiting false this)
    | Rejected =>
        dispatchEvent "failed" (console_log ErrorInAwait (set_awaiting false this))
    end
  else this.

(** [constructor(files)]: the synchronous part. [_peer] has no field: the
    Peer of models/Peer.js is where the channels and the peer events come
    from, and the listeners the constructor adds to it are the [Peer] cases
    of [handle]. *)
Definition constructor (uuid_v4 : nat → string) (files : list File.t) : t :=
  _awaitFileStreams
    (foldl (start_fileStream uuid_v4) (mk [] None [] 0 [] false [] []) files).

(** A new Dropper once the script that constructed it has run to its end and
    the promise jobs it left have run. *)
Definition new (uuid_v4 : nat → string) (files : list File.t) : t :=
  _awaitFileStreams_resume (constructor uuid_v4 files).

(** [get bytesSent()] *)
Definition bytesSent (this : t) : Z :=
  foldl (λ bytesSent fileStream, bytesSent + FileStream.offset fileStream)
        0 (_fileStreams this).

(** The events of the peer the constructor listens to. *)
Inductive PeerEvent :=
| registered (data : string)
| connected
| disconnected.

Inductive Event :=
| Stream (i : nat) (ev : FileStream.Event)   (* [ev] happens to [_fileStreams[i]] *)
| Peer (e : PeerEvent).                      (* [_peer] dispatches [e] *)

Section WithMessageSize.

Variable _messageSize : Z.

(** The listeners: [_sendMessage] of the stream concerned, with the resolve
    function of its promise listening to its 'done'; and the three listeners
    of the peer. *)
Definition handle (this : t) (ev : Event) : t :=
  match ev with
  | Stream i ev =>
      match _fileStreams this !! i with
      | Some fileStream =>
          let fileStream' := FileStream.step _messageSize fileStream ev in
          let fired := drop (length (FileStream.dispatched fileStream))
                            (FileStream.dispatched fileStream') in
          let this' := set_fileStreams (<[i := fileStream']> (_fileStreams this)) this in
          if decide ("done" ∈ fired)
          then set_promises (alter resolve i (_promises this')) this'
          else this'
      | None => this
      end
  | Peer (registered data) => dispatchEvent "idchanged" (set_id data this)
  | Peer connected => dispatchEvent "connected" this
  | Peer disconnected => dispatchEvent "disconnected" this
  end.

(** One event and the promise jobs it leaves. *)
Definition step (this : t) (ev : Event) : t :=
  _awaitFileStreams_resume (handle this ev).

Definition run (this : t) (evs : list Event) : t := foldl step this evs.

End WithMessageSize.

End Dropper.

Import Dropper(Pending, Fulfilled, Rejected).

(** ** Vocabulary of the properties *)

(** What the stream has handed to its channel so far, oldest first. *)
Definition sent (s : FileStream.t) : list Message :=
  DataChannel.sent (FileStream._dataChannel s).

Definition fileinfo_message (f : File.t) : Message :=
  Text (JSON.stringify (FileStream.packet f)).

Definition done_message : Message := Text FileStream.done_message.

Definition is_done_message (m : Message) : bool :=
  match m with
  | Text s => bool_decide (s = FileStream.done_message)
  | Binary _ => false
  end.

(** How many times the done message has been handed to the channel. *)
Definition count_done (l : list Message) : nat := length (filter is_done_message l).

(** [send] of message [m] went through. *)
Definition has_sent (m : Message) (s : FileStream.t) : FileStream.t :=
  FileStream.with_dataChannel
    (DataChannel.mk (DataChannel.label (FileStream._dataChannel s)) (sent s ++ [m])) s.

(** The cases of one step of a stream, one for each path through
    [_sendMessage]. *)
Inductive handles (messageSize : Z) (s : FileStream.t)
  : FileStream.Event → FileStream.t → Prop :=
| handles_fileinfo e :
    FileStream._state s = FileStream.fileinfo →
    handles messageSize s (FileStream.Fire e true)
      (FileStream.with_state FileStream.send
         (has_sent (fileinfo_message (FileStream.file s)) s))
| handles_done e :
    FileStream._state s = FileStream.send →
    File.size (FileStream.file s) ≤ FileStream.offset s →
    handles messageSize s (FileStream.Fire e true)
      (FileStream.with_state FileStream.done (has_sent done_message s))
| handles_control_throws e :
    FileStream._state s = FileStream.fileinfo
    ∨ (FileStream._state s = FileStream.send
       ∧ File.size (FileStream.file s) ≤ FileStream.offset s) →
    handles messageSize s (FileStream.Fire e false)
      (FileStream.logged (FileStream.ErrorIn FileStream.SendError) s)
| handles_chunk e accepts :
    FileStream._state s = FileStream.send →
    FileStream.offset s < File.size (FileStream.file s) →
    let end_ := Z.min (FileStream.offset s + messageSize)
                      (File.size (FileStream.file s)) in
    let blob := File.slice (FileStream.file s) (FileStream.offset s) end_ in
    handles messageSize s (FileStream.Fire e accepts)
      (FileStream.with_reads (FileStream._reads s ++ [blob])
         (FileStream.with_offset end_
            (FileStream.with_state FileStream.sending s)))
| handles_pass e accepts :
    FileStream._state s = FileStream.sending
    ∨ FileStream._state s = FileStream.done →
    handles messageSize s (FileStream.Fire e accepts)
      (FileStream.logged (FileStream.PassingState (FileStream._state s)) s)
| handles_fulfil n blob :
    FileStream._reads s !! n = Some blob →
    handles messageSize s (FileStream.Fulfil n true)
      (FileStream.with_state FileStream.send
         (has_sent (Binary blob)
            (FileStream.with_reads (delete n (FileStream._reads s)) s)))
| handles_chunk_throws n blob :
    FileStream._reads s !! n = Some blob →
    handles messageSize s (FileStream.Fulfil n false)
      (FileStream.logged (FileStream.ErrorIn FileStream.SendError)
         (FileStream.with_reads (delete n (FileStream._reads s)) s))
| handles_read_throws n blob :
    FileStream._reads s !! n = Some blob →
    handles messageSize s (FileStream.Reject n)
      (FileStream.logged (FileStream.ErrorIn FileStream.ReadError)
         (FileStream.with_reads (delete n (FileStream._reads s)) s))
| handles_no_read ev :
    (∃ n, (ev = FileStream.Reject n ∨ ∃ accepts, ev = FileStream.Fulfil n accepts)
          ∧ FileStream._reads s !! n = None) →
    handles messageSize s ev s.

(** Every payload is at most the maximum message size long. *)
Definition small (messageSize : Z) (payloads : list Blob) : Prop :=
  Forall (λ p : Blob, Z.of_nat (length p) ≤ messageSize) payloads.

(** Where a stream of file [f] stands: what it has handed to its channel,
    and the chunk it is reading, against the bytes of [f] up to [offset]. *)
Inductive in_order (messageSize : Z) (f : File.t) (s : FileStream.t) : Prop :=
| at_fileinfo :
    FileStream._state s = FileStream.fileinfo →
    FileStream.offset s = 0 →
    FileStream._reads s = [] →
    sent s = [] →
    in_order messageSize f s
| at_send payloads :
    FileStream._state s = FileStream.send →
    FileStream._reads s = [] →
    sent s = fileinfo_message f :: map Binary payloads →
    small messageSize payloads →
    concat payloads = take (Z.to_nat (FileStream.offset s)) (File.bytes f) →
    in_order messageSize f s
| at_reading payloads blob :
    FileStream._state s = FileStream.sending →
    FileStream._reads s = [blob] →
    sent s = fileinfo_message f :: map Binary payloads →
    small messageSize (payloads ++ [blob]) →
    concat (payloads ++ [blob])
    = take (Z.to_nat (FileStream.offset s)) (File.bytes f) →
    in_order messageSize f s
| at_stalled payloads :
    FileStream._state s = FileStream.sending →
    FileStream._reads s = [] →
    sent s = fileinfo_message f :: map Binary payloads →
    small messageSize payloads →
    concat payloads `prefix_of` File.bytes f →
    in_order messageSize f s
| at_done payloads :
    FileStream._state s = FileStream.done →
    FileStream._reads s = [] →
    FileStream.offset s = File.size f →
    sent s = fileinfo_message f :: map Binary payloads ++ [done_message] →
    small messageSize payloads →
    concat payloads = File.bytes f →
    in_order messageSize f s.

Definition sound (messageSize : Z) (f : File.t) (s : FileStream.t) : Prop :=
  FileStream.file s = f
  ∧ 0 ≤ FileStream.offset s ≤ File.size f
  ∧ in_order messageSize f s.

(** The messages of a whole transfer of [f] in the given payloads. *)
Definition transfer (f : File.t) (payloads : list Blob) : list Message :=
  fileinfo_message f :: map Binary payloads ++ [done_message].

(** A run without faults: the channel opens, then [k] times it reports a
    drained buffer and the read that follows yields its bytes; every [send]
    is accepted. *)
Definition fault_free (k : nat) : list FileStream.Event :=
  FileStream.Fire FileStream.open true
  :: concat (replicate k [FileStream.Fire FileStream.bufferedamountlow true;
                          FileStream.Fulfil 0 true]).

(** At most one call of [_sendMessage] is suspended at its [await], and
    only in the 'sending' state. *)
Definition serialised (s : FileStream.t) : Prop :=
  (length (FileStream._reads s) ≤ 1)%nat
  ∧ (FileStream._reads s ≠ [] → FileStream._state s = FileStream.sending).

(** The done message has been sent once in the 'done' state, with the file
    through, and not at all in the other states. *)
Definition done_once (s : FileStream.t) : Prop :=
  FileStream.offset s ≤ File.size (FileStream.file s)
  ∧ match FileStream._state s with
    | FileStream.done =>
        FileStream.offset s = File.size (FileStream.file s)
        ∧ count_done (sent s) = 1%nat
    | _ => count_done (sent s) = 0%nat
    end.

(** The sum of [offset] over the streams, as the specification words it. *)
Fixpoint sum_offsets (l : list FileStream.t) : Z :=
  match l with
  | [] => 0
  | s :: l' => FileStream.offset s + sum_offsets l'
  end.

(** The name under which the peer dispatches each of its events. *)
Definition signal (e : Dropper.PeerEvent) : string :=
  match e with
  | Dropper.registered _ => "registered"
  | Dropper.connected => "connected"
  | Dropper.disconnected => "disconnected"
  end.

(** No promise of [_awaitFileStreams] is rejected, and 'failed' has not been
    dispatched. *)
Definition unfailed (d : Dropper.t) : Prop :=
  (Rejected ∉ Dropper._promises d) ∧ ("failed" ∉ Dropper.dispatched d).

(** No stream has finished for the Dropper: every promise is pending, the
    Dropper is waiting for them, no stream has dispatched an event, and the
    Dropper has dispatched neither 'done' nor 'failed'. *)
Definition waiting (d : Dropper.t) : Prop :=
  Dropper._promises d ≠ []
  ∧ Forall (λ p, p = Pending) (Dropper._promises d)
  ∧ Forall (λ s, FileStream.dispatched s = []) (Dropper._fileStreams d)
  ∧ Dropper._awaiting d = true
  ∧ ("done" ∉ Dropper.dispatched d)
  ∧ ("failed" ∉ Dropper.dispatched d).

(** The promise jobs have run: the Dropper is not waiting for a settled
    [Promise.all]. *)
Definition settled (d : Dropper.t) : Prop :=
  Dropper._awaiting d = true →
  Dropper.Promise_all (Dropper._promises d) = Pending.

(** *** Files and batches the properties are tried on *)

Definition five_bytes : File.t :=
  File.mk "a.txt" "text/plain" [Byte.x01; Byte.x02; Byte.x03; Byte.x04; Byte.x05].

Definition empty_file : File.t := File.mk "empty.txt" "text/plain" [].

(** A stream of [five_bytes] with a maximum message size of 2, once the
    channel has opened: in the 'send' state, at offset 0. *)
Definition five_bytes_opened : FileStream.t :=
  FileStream.run 2 (FileStream.new "u" five_bytes)
    [FileStream.Fire FileStream.open true].

Definition uuids (k : nat) : string := "uuid-" +:+ pretty k.

(** A batch of three files, and a run of it in which the first and the
    third file are sent through and the read of the one chunk of the second
    fails. *)
Definition three_files : list File.t :=
  [empty_file;
   File.mk "b.bin" "application/octet-stream" [Byte.x0a; Byte.x0b];
   five_bytes].

Definition second_read_fails : list Dropper.Event :=
  [Dropper.Stream 0 (FileStream.Fire FileStream.open true);
   Dropper.Stream 1 (FileStream.Fire FileStream.open true);
   Dropper.Stream 2 (FileStream.Fire FileStream.open true);
   Dropper.Stream 0 (FileStream.Fire FileStream.bufferedamountlow true);
   Dropper.Stream 1 (FileStream.Fire FileStream.bufferedamountlow true);
   Dropper.Stream 2 (FileStream.Fire FileStream.bufferedamountlow true);
   Dropper.Stream 1 (FileStream.Reject 0);
   Dropper.Stream 2 (FileStream.Fulfil 0 true);
   Dropper.Stream 2 (FileStream.Fire FileStream.bufferedamountlow true);
   Dropper.Stream 1 (FileStream.Fire FileStream.bufferedamountlow true);
   Dropper.Stream 2 (FileStream.Fulfil 0 true);
   Dropper.Stream 2 (FileStream.Fire FileStream.bufferedamountlow true)].

(** The same stream once the read of its first chunk is under way: in the
    'sending' state, at offset 2. *)
Definition five_bytes_reading : FileStream.t :=
  FileStream.run 2 five_bytes_opened
    [FileStream.Fire FileStream.bufferedamountlow true].

(** A file of 250,000 bytes, and the length of a payload (-1 for a text
    message). *)
Definition quarter_million : File.t :=
  File.mk "big.bin" "application/octet-stream"
    (replicate (Z.to_nat 250000) Byte.x00).

Definition payload_length (m : Message) : Z :=
  match m with
  | Text _ => -1
  | Binary b => Z.of_nat (length b)
  end.

(** *** The texts of the control messages, letter by letter *)

(** The quotation mark, character 34. *)
Definition quotation_mark : string := String (Ascii.ascii_of_nat 34) "".

(** A text between quotation marks, as it stands. *)
Definition quoted (s : string) : string := quotation_mark +:+ s +:+ quotation_mark.

(** The text of the done message: an object with the one member type,
    the string done. *)
Definition done_text : string :=
  "{" +:+ quoted "type" +:+ ":" +:+ quoted "done" +:+ "}".

(** The text of the fileinfo message around the JSON texts of the name, the
    size and the type of the file. *)
Definition fileinfo_text (name size type : string) : string :=
  "{" +:+ quoted "type" +:+ ":" +:+ quoted "fileinfo" +:+ ","
  +:+ quoted "fileinfo" +:+ ":{"
  +:+ quoted "name" +:+ ":" +:+ name +:+ ","
  +:+ quoted "size" +:+ ":" +:+ size +:+ ","
  +:+ quoted "type" +:+ ":" +:+ type +:+ "}}".

(** A character that stands for itself in a JSON string: no control
    character, not the quotation mark (34), not the backslash (92). *)
Definition plain_char (c : ascii) : bool :=
  let n := Ascii.N_of_ascii c in
  (32 <=? n)%N && negb (n =? 34)%N && negb (n =? 92)%N.

Fixpoint plain (s : string) : bool :=
  match s with
  | EmptyString => true
  | String c s' => plain_char c && plain s'
  end.

(** The character codes of a text. *)
Fixpoint codes (s : string) : list N :=
  match s with
  | EmptyString => []
  | String c s' => Ascii.N_of_ascii c :: codes s'
  end.

(** The characters a JSON string has for the character of code [n]:
    backslash (92) and a letter for backspace, tab, line feed, form feed and
    carriage return; backslash and the character itself for the quotation
    mark and the backslash; backslash, u, 0, 0 and two hexadecimal digits for
    the other control characters; the character itself otherwise. *)
Definition hexadecimal (d : N) : N := if (d <? 10)%N then (48 + d)%N else (87 + d)%N.

Definition json_char_codes (n : N) : list N :=
  if (n =? 8)%N then [92; 98]%N
  else if (n =? 9)%N then [92; 116]%N
  else if (n =? 10)%N then [92; 110]%N
  else if (n =? 12)%N then [92; 102]%N
  else if (n =? 13)%N then [92; 114]%N
  else if (n =? 34)%N then [92; 34]%N
  else if (n =? 92)%N then [92; 92]%N
  else if (n <? 32)%N then
    [92; 117; 48; 48; hexadecimal (n / 16); hexadecimal (n mod 16)]%N
  else [n].

(** The characters of the JSON string of a text: its characters one by one,
    between quotation marks. *)
Definition json_string_codes (t : string) : list N :=
  34%N :: concat (json_char_codes <$> codes t) ++ [34%N].

(** *** Vocabulary of the properties of the batch as a whole *)

(** The events of a run of the Dropper that happen to its i-th stream. *)
Definition stream_events (i : nat) (evs : list Dropper.Event)
  : list FileStream.Event :=
  omap (λ ev, match ev with
              | Dropper.Stream j ev' => if decide (j = i) then Some ev' else None
              | Dropper.Peer _ => None
              end) evs.

(** The entry of [fileinfo] for a file. *)
Definition file_info (f : File.t) : Dropper.FileInfo :=
  Dropper.mkFileInfo (File.name f) (File.size f) (File.type f).

Fixpoint sum_sizes (files : list File.t) : Z :=
  match files with
  | [] => 0
  | f :: files' => File.size f + sum_sizes files'
  end.

(** The event the Dropper dispatches for an event of its peer. *)
Definition relayed (ev : Dropper.Event) : option string :=
  match ev with
  | Dropper.Stream _ _ => None
  | Dropper.Peer (Dropper.registered _) => Some "idchanged"
  | Dropper.Peer Dropper.connected => Some "connected"
  | Dropper.Peer Dropper.disconnected => Some "disconnected"
  end.

(** The identifier an event registers, if it is a 'registered'. *)
Definition registration (ev : Dropper.Event) : option string :=
  match ev with
  | Dropper.Peer (Dropper.registered data) => Some data
  | _ => None
  end.

(** The binary payloads among the messages a channel was handed. *)
Definition payloads (l : list Message) : list Blob :=
  omap (λ m, match m with
             | Binary b => Some b
             | Text _ => None
             end) l.

(** The i-th piece of a file cut at every [messageSize] bytes. *)
Definition chunk (messageSize : Z) (f : File.t) (i : nat) : Blob :=
  File.slice f (Z.of_nat i * messageSize)
    (Z.min ((Z.of_nat i + 1) * messageSize) (File.size f)).

(** A stream of [f] that has handed over the first [k] pieces of [f]: where
    its offset and its pending read are, state by state. *)
Definition cut_at (messageSize : Z) (f : File.t) (k : nat) (s : FileStream.t)
  : Prop :=
  FileStream.file s = f
  ∧ payloads (sent s) = chunk messageSize f <$> seq 0 k
  ∧ (k = 0%nat ∨ (Z.of_nat k - 1) * messageSize < File.size f)
  ∧ match FileStream._state s with
    | FileStream.fileinfo =>
        k = 0%nat ∧ FileStream.offset s = 0 ∧ FileStream._reads s = []
    | FileStream.sending =>
        FileStream.offset s
        = Z.min ((Z.of_nat k + 1) * messageSize) (File.size f)
        ∧ Z.of_nat k * messageSize < File.size f
        ∧ (FileStream._reads s = []
           ∨ FileStream._reads s = [chunk messageSize f k])
    | _ =>
        FileStream.offset s = Z.min (Z.of_nat k * messageSize) (File.size f)
        ∧ FileStream._reads s = []
    end.

(** A batch of two files, and a run of it in which the fault-free runs of
    its two streams are interleaved. *)
Definition two_files : list File.t := [empty_file; five_bytes].

Definition interleaved : list Dropper.Event :=
  [Dropper.Stream 1 (FileStream.Fire FileStream.open true);
   Dropper.Stream 0 (FileStream.Fire FileStream.open true);
   Dropper.Stream 1 (FileStream.Fire FileStream.bufferedamountlow true);
   Dropper.Stream 0 (FileStream.Fire FileStream.bufferedamountlow true);
   Dropper.Stream 1 (FileStream.Fulfil 0 true);
   Dropper.Stream 0 (FileStream.Fulfil 0 true)]
  ++ (Dropper.Stream 1
        <$> concat (replicate 5 [FileStream.Fire FileStream.bufferedamountlow true;
                                 FileStream.Fulfil 0 true])).

(** ** The steps of a FileStream *)

Ltac unfold_handler :=
  unfold FileStream.step, FileStream._sendMessage, FileStream._sendMessage_resume,
    FileStream.try_catch, FileStream.awaited, FileStream.await_arrayBuffer,
    FileStream.set_state, FileStream.set_offset, FileStream.console_log,
    FileStream.dataChannel_send, FileStream.throw, FileStream.modify,
    FileStream.get, DataChannel.send,
    mbind, mret, FileStream.Handler_bind, FileStream.Handler_ret.

Lemma step_handles messageSize s ev :
  handles messageSize s ev (FileStream.step messageSize s ev).
Proof.
  destruct ev as [e accepts | n accepts | n]; unfold_handler.
  - destruct (FileStream._state s) eqn:Hst.
    + destruct accepts.
      * by apply handles_fileinfo.
      * apply handles_control_throws. by left.
    + destruct (Z.geb_spec (FileStream.offset s) (File.size (FileStream.file s)))
        as [Hge | Hlt].
      * destruct accepts.
        -- apply handles_done; [done | lia].
        -- apply handles_control_throws. right. split; [done | lia].
      * exact (handles_chunk messageSize s e accepts Hst Hlt).
    + rewrite <- Hst. apply handles_pass. by left.
    + rewrite <- Hst. apply handles_pass. by right.
  - destruct (FileStream._reads s !! n) as [blob |] eqn:Hn.
    + destruct accepts.
      * by apply handles_fulfil.
      * by apply (handles_chunk_throws _ _ _ blob).
    + apply handles_no_read. exists n. split; [right; by exists accepts | done].
  - destruct (FileStream._reads s !! n) as [blob |] eqn:Hn.
    + by apply (handles_read_throws _ _ _ blob).
    + apply handles_no_read. exists n. split; [by left | done].
Qed.

Lemma slice_within f (start end_ : Z) :
  0 ≤ start ≤ end_ → end_ ≤ File.size f →
  File.slice f start end_
  = take (Z.to_nat (end_ - start)) (drop (Z.to_nat start) (File.bytes f)).
Proof.
  intros [H0 Hse] Hsz. unfold File.slice.
  destruct (Z.ltb_spec start 0); [lia |].
  destruct (Z.ltb_spec end_ 0); [lia |].
  by rewrite !Z.min_l, Z.max_l by lia.
Qed.

Lemma slice_length f (start end_ : Z) :
  0 ≤ start ≤ end_ → end_ ≤ File.size f →
  Z.of_nat (length (File.slice f start end_)) = end_ - start.
Proof.
  intros Hse Hsz. rewrite slice_within by done. unfold File.size in Hsz.
  rewrite length_take, length_drop. lia.
Qed.

Lemma slice_extends f (start end_ : Z) :
  0 ≤ start ≤ end_ → end_ ≤ File.size f →
  take (Z.to_nat start) (File.bytes f) ++ File.slice f start end_
  = take (Z.to_nat end_) (File.bytes f).
Proof.
  intros Hse Hsz. rewrite slice_within, take_take_drop by done.
  f_equal. lia.
Qed.

Lemma sound_new messageSize uuid f : sound messageSize f (FileStream.new uuid f).
Proof.
  split; [done |]. split; [unfold File.size; cbn; lia |].
  by apply at_fileinfo.
Qed.

Lemma in_order_ext messageSize f s s' :
  FileStream._state s' = FileStream._state s →
  FileStream.offset s' = FileStream.offset s →
  FileStream._reads s' = FileStream._reads s →
  sent s' = sent s →
  in_order messageSize f s → in_order messageSize f s'.
Proof.
  intros Est Eoff Erd Esent Hs.
  destruct Hs; [ apply at_fileinfo | eapply at_send | eapply at_reading
               | eapply at_stalled | eapply at_done ];
    rewrite ?Est, ?Eoff, ?Erd, ?Esent; eauto.
Qed.

Lemma in_order_read messageSize f s n blob :
  in_order messageSize f s → FileStream._reads s !! n = Some blob →
  ∃ payloads,
    n = 0%nat
    ∧ FileStream._state s = FileStream.sending
    ∧ FileStream._reads s = [blob]
    ∧ sent s = fileinfo_message f :: map Binary payloads
    ∧ small messageSize (payloads ++ [blob])
    ∧ concat (payloads ++ [blob])
      = take (Z.to_nat (FileStream.offset s)) (File.bytes f).
Proof.
  intros Hord Hn.
  destruct Hord as [? ? Hrd | ? ? Hrd | ps b ? Hrd | ? ? Hrd | ? ? Hrd];
    rewrite Hrd in Hn; try by destruct n.
  destruct n as [| n]; [| by destruct n].
  injection Hn as ->. by exists ps.
Qed.

(** A chunk whose read or whose write fails leaves the stream stalled. *)
Lemma in_order_read_lost messageSize f s n blob s' :
  in_order messageSize f s → FileStream._reads s !! n = Some blob →
  FileStream._state s' = FileStream._state s →
  FileStream._reads s' = delete n (FileStream._reads s) →
  sent s' = sent s →
  in_order messageSize f s'.
Proof.
  intros Hord Hn Est Erd Esent.
  destruct (in_order_read _ _ _ _ _ Hord Hn)
    as (ps & -> & Hst & Hrd & Hsent & Hsm & Hcat).
  apply (at_stalled _ _ _ ps).
  - congruence.
  - by rewrite Erd, Hrd.
  - congruence.
  - by apply Forall_app in Hsm as [? _].
  - rewrite concat_app in Hcat. eapply prefix_app_l.
    rewrite Hcat. apply prefix_take.
Qed.

Lemma sound_handles messageSize f s ev s' :
  0 ≤ messageSize → sound messageSize f s → handles messageSize s ev s' →
  sound messageSize f s'.
Proof.
  intros Hms (Hf & Hoff & Hord) Hstep.
  destruct Hstep as [e Hst | e Hst Hge | e Hst | e accepts Hst Hlt
                    | e accepts Hst | n blob Hn | n blob Hn | n blob Hn | ev Hn];
    try (subst f); try (split; [done |]); cbn.
  - (* the fileinfo message *)
    split; [done |].
    destruct Hord; try congruence.
    apply (at_send _ _ _ []); cbn; try done.
    + unfold sent in *; cbn. by rewrite H2.
    + constructor.
    + by rewrite H0.
  - (* the done message *)
    split; [done |].
    destruct Hord as [| ps H1 H3 H4 H5 H6 | | |]; try congruence.
    apply (at_done _ _ _ ps); cbn; try done.
    + lia.
    + unfold sent in *; cbn. by rewrite H4.
    + rewrite H6. apply take_ge. unfold File.size in *. lia.
  - (* a control message is refused *)
    split; [done |]. by apply (in_order_ext _ _ s).
  - (* a chunk is read *)
    assert (FileStream.offset s ≤ end_ ≤ File.size (FileStream.file s))
      as Hend by (subst end_; lia).
    split; [lia |].
    destruct Hord as [| ps H1 H3 H4 H5 H6 | | |]; try congruence.
    apply (at_reading _ _ _ ps blob); cbn; try done.
    + by rewrite H3.
    + apply Forall_app. split; [done |]. apply Forall_singleton.
      subst blob. rewrite slice_length by lia. subst end_. lia.
    + rewrite concat_app, H6. cbn. rewrite app_nil_r.
      subst blob. apply slice_extends; lia.
  - (* an event is passed *)
    split; [done |]. by apply (in_order_ext _ _ s).
  - (* the chunk is sent *)
    split; [done |].
    destruct (in_order_read _ _ _ _ _ Hord Hn) as (ps & -> & _ & Hrd & Hsent & Hsm & Hcat).
    apply (at_send _ _ _ (ps ++ [blob])); cbn; try done.
    + by rewrite Hrd.
    + unfold sent in *; cbn. by rewrite Hsent, map_app.
  - (* the chunk is refused *)
    split; [done |]. by apply (in_order_read_lost _ _ s n blob).
  - (* the read fails *)
    split; [done |]. by apply (in_order_read_lost _ _ s n blob).
  - done.
Qed.

Lemma sound_step messageSize f s ev :
  0 ≤ messageSize → sound messageSize f s →
  sound messageSize f (FileStream.step messageSize s ev).
Proof. intros Hms Hs. eapply sound_handles; eauto using step_handles. Qed.

Lemma sound_run messageSize f s evs :
  0 ≤ messageSize → sound messageSize f s →
  sound messageSize f (FileStream.run messageSize s evs).
Proof.
  intros Hms. revert s.
  induction evs as [| ev evs IH]; intros s Hs; [done |].
  cbn. apply IH. by apply sound_step.
Qed.

(** The fileinfo message cannot be taken for the done message. *)
Lemma fileinfo_not_done f : fileinfo_message f ≠ done_message.
Proof.
  unfold fileinfo_message, done_message. intros H. injection H as H.
  cbn in H. discriminate H.
Qed.

Lemma done_not_payload (payloads : list Blob) :
  done_message ∉ map Binary payloads.
Proof.
  intros H. apply list_elem_of_fmap in H as (p & H & _). discriminate H.
Qed.

(** The messages of a whole transfer. *)
Lemma done_not_before f (payloads : list Blob) :
  done_message ∉ fileinfo_message f :: map Binary payloads.
Proof.
  intros H. apply elem_of_cons in H as [H | H].
  - by apply (fileinfo_not_done f).
  - by apply (done_not_payload payloads).
Qed.

(** One round of a fault-free run from the 'send' state: the done message
    when the file is through, the next chunk otherwise. *)
Lemma round_from_send messageSize s :
  FileStream._state s = FileStream.send → FileStream._reads s = [] →
  let s' := FileStream.run messageSize s
              [FileStream.Fire FileStream.bufferedamountlow true;
               FileStream.Fulfil 0 true] in
  FileStream._reads s' = []
  ∧ FileStream.file s' = FileStream.file s
  ∧ ((File.size (FileStream.file s) ≤ FileStream.offset s
      ∧ FileStream._state s' = FileStream.done)
     ∨ (FileStream.offset s < File.size (FileStream.file s)
        ∧ FileStream._state s' = FileStream.send
        ∧ FileStream.offset s'
          = Z.min (FileStream.offset s + messageSize)
                  (File.size (FileStream.file s)))).
Proof.
  destruct s as [dc st f lb off rs d c]. cbn. intros -> ->.
  unfold_handler. cbn.
  destruct (Z.geb_spec off (File.size f)) as [Hge | Hlt]; cbn.
  - split; [done |]. split; [done |]. left. split; [lia | done].
  - split; [done |]. split; [done |]. right. done.
Qed.

Lemma round_from_done messageSize s :
  FileStream._state s = FileStream.done → FileStream._reads s = [] →
  let s' := FileStream.run messageSize s
              [FileStream.Fire FileStream.bufferedamountlow true;
               FileStream.Fulfil 0 true] in
  FileStream._reads s' = [] ∧ FileStream._state s' = FileStream.done.
Proof.
  destruct s as [dc st f lb off rs d c]. cbn. intros -> ->. done.
Qed.

Lemma rounds_reach_done messageSize (k : nat) : ∀ s,
  0 < messageSize →
  FileStream._reads s = [] →
  FileStream._state s = FileStream.done
  ∨ (FileStream._state s = FileStream.send
     ∧ FileStream.offset s ≤ File.size (FileStream.file s)
     ∧ File.size (FileStream.file s) - FileStream.offset s < Z.of_nat k) →
  FileStream._state
    (FileStream.run messageSize s
       (concat (replicate k [FileStream.Fire FileStream.bufferedamountlow true;
                             FileStream.Fulfil 0 true])))
  = FileStream.done.
Proof.
  induction k as [| k IH]; intros s Hms Hrd Hs.
  - destruct Hs as [Hs | (_ & Hle & Hk)]; [done | lia].
  - change (concat (replicate (S k) ?r)) with (r ++ concat (replicate k r)).
    unfold FileStream.run. rewrite foldl_app. apply IH; [done | |].
    + destruct Hs as [Hs | (Hs & _)].
      * by apply round_from_done.
      * by apply round_from_send.
    + destruct Hs as [Hs | (Hs & Hle & Hk)].
      * left. by apply round_from_done.
      * destruct (round_from_send messageSize s Hs Hrd)
          as (_ & Hf & [[_ Hd] | (Hlt & Hst & Hoff)]); [by left |].
        right. unfold FileStream.run in Hf, Hst, Hoff.
        rewrite Hf, Hoff. split; [done |]. lia.
Qed.

(** A fault-free run with one round more than the file has bytes ends in
    the 'done' state. *)
Lemma fault_free_done messageSize uuid f :
  0 < messageSize →
  FileStream._state
    (FileStream.run messageSize (FileStream.new uuid f)
       (fault_free (S (length (File.bytes f)))))
  = FileStream.done.
Proof.
  intros Hms. unfold fault_free.
  change (FileStream.run messageSize ?s (?ev :: ?evs))
    with (FileStream.run messageSize (FileStream.step messageSize s ev) evs).
  apply rounds_reach_done; [done | done |].
  right. split; [done |].
  change (FileStream.offset _) with 0. change (FileStream.file _) with f.
  unfold File.size. lia.
Qed.

Lemma in_order_transfer messageSize f s :
  in_order messageSize f s →
  ∃ payloads,
    small messageSize payloads
    ∧ concat payloads `prefix_of` File.bytes f
    ∧ sent s `prefix_of` transfer f payloads
    ∧ (FileStream._state s = FileStream.done ∨ done_message ∈ sent s →
       FileStream._state s = FileStream.done
       ∧ sent s = transfer f payloads
       ∧ concat payloads = File.bytes f).
Proof.
  intros [Hst Hoff Hrd Hsent
         | ps Hst Hrd Hsent Hsm Hcat
         | ps blob Hst Hrd Hsent Hsm Hcat
         | ps Hst Hrd Hsent Hsm Hcat
         | ps Hst Hrd Hoff Hsent Hsm Hcat].
  - exists []. rewrite Hsent. split_and!.
    + apply Forall_nil_2.
    + apply prefix_nil.
    + apply prefix_nil.
    + intros [? | H]; [congruence | by apply elem_of_nil in H].
  - exists ps. rewrite Hsent, Hcat. split_and!.
    + done.
    + apply prefix_take.
    + by apply prefix_cons, prefix_app_r.
    + intros [? | H]; [congruence | by apply done_not_before in H].
  - exists ps. rewrite Hsent.
    apply Forall_app in Hsm as [Hsm _]. rewrite concat_app in Hcat. split_and!.
    + done.
    + eapply prefix_app_l. rewrite Hcat. apply prefix_take.
    + by apply prefix_cons, prefix_app_r.
    + intros [? | H]; [congruence | by apply done_not_before in H].
  - exists ps. rewrite Hsent. split_and!.
    + done.
    + done.
    + by apply prefix_cons, prefix_app_r.
    + intros [? | H]; [congruence | by apply done_not_before in H].
  - exists ps. rewrite Hsent, Hcat. by split_and!.
Qed.

(** The control messages as texts. *)
Lemma escape_plain c : plain_char c = true → JSON.escape c = String c "".
Proof.
  unfold plain_char, JSON.escape. cbv zeta.
  generalize (N_of_ascii c). intros n Hn.
  apply andb_prop in Hn as [Hn H92]. apply andb_prop in Hn as [H32 H34].
  apply N.leb_le in H32. apply negb_true_iff, N.eqb_neq in H34, H92.
  repeat match goal with
         | |- context [(n =? ?k)%N] =>
             destruct (N.eqb_spec n k) as [? | _]; [lia |]
         end.
  destruct (N.ltb_spec n 32); [lia | done].
Qed.

Lemma escape_all_plain s : plain s = true → JSON.escape_all s = s.
Proof.
  induction s as [| c s IH]; intros Hs; [done |].
  cbn in Hs. apply andb_prop in Hs as [Hc Hs].
  cbn. rewrite escape_plain, IH by done. done.
Qed.

Lemma quote_plain s : plain s = true → JSON.quote s = quoted s.
Proof.
  intros Hs. unfold JSON.quote, quoted, quotation_mark.
  by rewrite escape_all_plain.
Qed.

Lemma done_message_text : done_message = Text done_text.
Proof. reflexivity. Qed.

Lemma string_app_assoc (s1 s2 s3 : string) :
  (s1 +:+ s2) +:+ s3 = s1 +:+ s2 +:+ s3.
Proof.
  induction s1 as [| c s1 IH]; [done |].
  change (String c ((s1 +:+ s2) +:+ s3) = String c (s1 +:+ s2 +:+ s3)).
  by rewrite IH.
Qed.

Lemma fileinfo_message_text f :
  fileinfo_message f
  = Text (fileinfo_text (JSON.quote (File.name f)) (pretty (File.size f))
            (JSON.quote (File.type f))).
Proof.
  unfold fileinfo_message, fileinfo_text, FileStream.packet.
  f_equal. cbn -[JSON.quote pretty].
  rewrite !string_app_assoc. reflexivity.
Qed.

Lemma codes_app (s1 s2 : string) : codes (s1 +:+ s2) = codes s1 ++ codes s2.
Proof.
  induction s1 as [| c s1 IH]; [done |].
  change (N_of_ascii c :: codes (s1 +:+ s2) = N_of_ascii c :: codes s1 ++ codes s2).
  by rewrite IH.
Qed.

Lemma escape_codes c : codes (JSON.escape c) = json_char_codes (N_of_ascii c).
Proof. destruct c as [[] [] [] [] [] [] [] []]; reflexivity. Qed.

Lemma quote_codes t : codes (JSON.quote t) = json_string_codes t.
Proof.
  unfold JSON.quote, json_string_codes.
  change (codes (String JSON.dquote ?r)) with (34%N :: codes r).
  rewrite codes_app. do 2 f_equal.
  induction t as [| c t IH]; [done |].
  change (JSON.escape_all (String c t)) with (JSON.escape c +:+ JSON.escape_all t).
  rewrite codes_app, escape_codes, IH. done.
Qed.

(** The texts of the control messages, character by character: the done
    message reads [{"type":"done"}], and the fileinfo message around
    the texts N, S and T reads
    [{"type":"fileinfo","fileinfo":{"name":N,"size":S,"type":T}}]. *)
Example done_text_codes :
  codes done_text
  = [123; 34; 116; 121; 112; 101; 34; 58; 34; 100; 111; 110; 101; 34;
      125]%N.
Proof. reflexivity. Qed.

Example fileinfo_text_codes :
  codes (fileinfo_text "N" "S" "T")
  = [123; 34; 116; 121; 112; 101; 34; 58; 34; 102; 105; 108; 101; 105;
      110; 102; 111; 34; 44; 34; 102; 105; 108; 101; 105; 110; 102; 111;
      34; 58; 123; 34; 110; 97; 109; 101; 34; 58; 78; 44; 34; 115; 105;
      122; 101; 34; 58; 83; 44; 34; 116; 121; 112; 101; 34; 58; 84; 125;
      125]%N.
Proof. reflexivity. Qed.

(** C1: the messages a FileStream hands to its channel are, in this order,
    the fileinfo message, binary payloads of at most the maximum message
    size each that together are the bytes of the file, and the done message.
    At every moment of every run, faults included, what has been sent is the
    beginning of such a sequence, with payloads that are the beginning of the
    file; once the done message is among them it is the whole sequence and
    the payloads are the whole file; and the run without faults does send
    the done message. The fileinfo message is not the done message. The done
    message is the text [done_text]; the fileinfo message is the text
    [fileinfo_text] around the JSON string of the name of the file, its
    size in decimal digits and the JSON string of its type; and the JSON
    string of a text of plain characters is that text between quotation
    marks, and that of any text has the characters [json_string_codes]
    lists. *)
Theorem transfer_sequence messageSize uuid f :
  0 < messageSize →
  (∀ evs,
     let s := FileStream.run messageSize (FileStream.new uuid f) evs in
     ∃ payloads,
       small messageSize payloads
       ∧ concat payloads `prefix_of` File.bytes f
       ∧ sent s `prefix_of` transfer f payloads
       ∧ (done_message ∈ sent s →
          sent s = transfer f payloads ∧ concat payloads = File.bytes f))
  ∧ done_message
    ∈ sent (FileStream.run messageSize (FileStream.new uuid f)
              (fault_free (S (length (File.bytes f)))))
  ∧ fileinfo_message f ≠ done_message
  ∧ done_message = Text done_text
  ∧ fileinfo_message f
    = Text (fileinfo_text (JSON.quote (File.name f)) (pretty (File.size f))
              (JSON.quote (File.type f)))
  ∧ (∀ t, plain t = true → JSON.quote t = quoted t)
  ∧ (∀ t, codes (JSON.quote t) = json_string_codes t).
Proof.
  intros Hms.
  assert (∀ evs, in_order messageSize f
                   (FileStream.run messageSize (FileStream.new uuid f) evs))
    as Hrun.
  { intros evs. apply sound_run; [lia | apply sound_new]. }
  split_and!.
  - intros evs s.
    destruct (in_order_transfer _ _ _ (Hrun evs)) as (ps & Hsm & Hcat & Hpre & Hdone).
    exists ps. repeat split; try done; apply Hdone; by right.
  - pose proof (fault_free_done messageSize uuid f Hms) as Hst.
    destruct (in_order_transfer _ _ _ (Hrun (fault_free (S (length (File.bytes f))))))
      as (ps & _ & _ & _ & Hdone).
    destruct Hdone as (_ & -> & _); [by left |].
    unfold transfer. rewrite elem_of_cons, elem_of_app, list_elem_of_singleton. auto.
  - apply fileinfo_not_done.
  - apply done_message_text.
  - apply fileinfo_message_text.
  - apply quote_plain.
  - apply quote_codes.
Qed.

Example five_bytes_by_two :
  sent (FileStream.run 2 (FileStream.new "u" five_bytes) (fault_free 6))
  = transfer five_bytes [[Byte.x01; Byte.x02]; [Byte.x03; Byte.x04]; [Byte.x05]].
Proof. vm_compute. reflexivity. Qed.

(** An empty file: the fileinfo message with size 0, then the done message,
    the offset at 0 throughout. *)
Example empty_file_transfer :
  sent (FileStream.run 65536 (FileStream.new "u" empty_file) (fault_free 1))
  = transfer empty_file []
  ∧ fileinfo_message empty_file
    = Text (JSON.stringify
              (JSON.Obj
                 [("type", JSON.Str "fileinfo");
                  ("fileinfo",
                   JSON.Obj [("name", JSON.Str "empty.txt"); ("size", JSON.Num 0);
                             ("type", JSON.Str "text/plain")])]))
  ∧ FileStream.offset
      (FileStream.run 65536 (FileStream.new "u" empty_file) (fault_free 1))
    = 0.
Proof. vm_compute. done. Qed.

(** 250,000 bytes in messages of at most 65,536: four payloads. *)
Example quarter_million_transfer :
  payload_length <$>
    sent (FileStream.run 65536 (FileStream.new "u" quarter_million) (fault_free 5))
  = [-1; 65536; 65536; 65536; 53392; -1]
  ∧ (λ evs, FileStream.offset
              (FileStream.run 65536 (FileStream.new "u" quarter_million) evs))
    <$> [fault_free 1; fault_free 2; fault_free 3; fault_free 4]
    = [65536; 131072; 196608; 250000].
Proof. vm_compute. done. Qed.

(** The literal of the done message is what [JSON.stringify] makes of
    [{type: 'done'}]. *)
Example done_message_json :
  FileStream.done_message = JSON.stringify (JSON.Obj [("type", JSON.Str "done")]).
Proof. reflexivity. Qed.

Lemma transfer_sequence_witness :
  0 < 2
  ∧ done_message
    ∈ sent (FileStream.run 2 (FileStream.new "u" five_bytes) (fault_free 6))
  ∧ plain "a.txt" = true
  ∧ fileinfo_message five_bytes
    = Text (fileinfo_text (quoted "a.txt") "5" (quoted "text/plain")).
Proof.
  destruct (transfer_sequence 2 "u" five_bytes)
    as (_ & Hdone & _ & _ & Hinfo & Hplain & _); [lia |].
  split_and!; [lia | exact Hdone | reflexivity |].
  rewrite Hinfo. rewrite !Hplain by reflexivity. reflexivity.
Defined.

(** ** The offset of a FileStream *)

(** C5: [offset] starts at 0, never decreases and never exceeds the size of
    the file; a step changes it only when [_sendMessage] is called in the
    'send' state with bytes left, where it starts the read of the slice from
    [offset] to [min(offset + _messageSize, file.size)], moves to 'sending'
    and advances [offset] to that end, which is by the length of the slice;
    the slice is what the channel is handed when the read yields. *)
Theorem offset_advances messageSize uuid f :
  0 ≤ messageSize →
  (∀ evs,
     0 ≤ FileStream.offset (FileStream.run messageSize (FileStream.new uuid f) evs)
       ≤ File.size f)
  ∧ (∀ evs evs',
       FileStream.offset (FileStream.run messageSize (FileStream.new uuid f) evs)
       ≤ FileStream.offset
           (FileStream.run messageSize (FileStream.new uuid f) (evs ++ evs')))
  ∧ (∀ evs ev,
       let s := FileStream.run messageSize (FileStream.new uuid f) evs in
       let s' := FileStream.step messageSize s ev in
       FileStream.offset s' ≠ FileStream.offset s →
       (∃ e accepts, ev = FileStream.Fire e accepts)
       ∧ FileStream._state s = FileStream.send
       ∧ FileStream._state s' = FileStream.sending
       ∧ FileStream.offset s'
         = Z.min (FileStream.offset s + messageSize) (File.size f)
       ∧ ∃ blob,
           FileStream._reads s' = [blob]
           ∧ Z.of_nat (length blob) = FileStream.offset s' - FileStream.offset s
           ∧ sent (FileStream.step messageSize s' (FileStream.Fulfil 0 true))
             = sent s' ++ [Binary blob]).
Proof.
  intros Hms.
  assert (∀ evs, sound messageSize f
                   (FileStream.run messageSize (FileStream.new uuid f) evs))
    as Hrun.
  { intros evs. apply sound_run; [done | apply sound_new]. }
  split_and!.
  - intros evs. apply Hrun.
  - intros evs evs'. unfold FileStream.run. rewrite foldl_app.
    fold (FileStream.run messageSize (FileStream.new uuid f) evs).
    generalize (Hrun evs).
    generalize (FileStream.run messageSize (FileStream.new uuid f) evs).
    induction evs' as [| ev evs' IH]; intros s Hs; [done |].
    cbn. etrans; [| apply IH; by apply sound_step].
    destruct Hs as (Hf & Hoff & _).
    destruct (step_handles messageSize s ev); cbn; lia.
  - intros evs ev s s' Hne.
    destruct (Hrun evs) as (Hf & Hoff & Hord). fold s in Hf, Hoff, Hord.
    subst s'.
    destruct (step_handles messageSize s ev)
      as [| | | e accepts Hst Hlt | | | | |]; try done.
    split; [by exists e, accepts |].
    assert (FileStream._reads s = []) as Hrd.
    { destruct Hord; congruence. }
    rewrite <- Hf. split_and!; try done.
    exists blob. cbn. rewrite Hrd. split_and!; try done.
    subst blob. rewrite slice_length; lia.
Qed.

(** Why the size must not be negative: with -1 the first chunk read moves
    the offset back to -1. *)
Example negative_size_rewinds :
  FileStream.offset
    (FileStream.run (-1) (FileStream.new "u" five_bytes)
       [FileStream.Fire FileStream.open true;
        FileStream.Fire FileStream.bufferedamountlow true])
  = -1.
Proof. reflexivity. Qed.

Lemma offset_advances_witness :
  0 ≤ 2
  ∧ FileStream.offset
      (FileStream.run 2 (FileStream.new "u" five_bytes)
         [FileStream.Fire FileStream.open true;
          FileStream.Fire FileStream.bufferedamountlow true])
    = Z.min (0 + 2) (File.size five_bytes).
Proof.
  split; [lia |].
  destruct (offset_advances 2 "u" five_bytes) as (_ & _ & Hstep); [lia |].
  destruct (Hstep [FileStream.Fire FileStream.open true]
                  (FileStream.Fire FileStream.bufferedamountlow true))
    as (_ & _ & _ & Hoff & _); [vm_compute; discriminate |].
  exact Hoff.
Defined.

(** ** One chunk at a time, one done message *)

Lemma handles_file messageSize s ev s' :
  handles messageSize s ev s' →
  FileStream.file s' = FileStream.file s
  ∧ FileStream.dispatched s' = FileStream.dispatched s.
Proof. by destruct 1. Qed.

Lemma count_done_snoc l m :
  count_done (l ++ [m])
  = (count_done l + if is_done_message m then 1 else 0)%nat.
Proof.
  unfold count_done. rewrite filter_app, length_app. f_equal.
  destruct (is_done_message m) eqn:Hm.
  - rewrite filter_cons_True; [done | by rewrite Hm].
  - rewrite filter_cons_False; [done | rewrite Hm; cbn; tauto].
Qed.

Lemma fileinfo_is_not_done f : is_done_message (fileinfo_message f) = false.
Proof.
  apply bool_decide_eq_false. intros H.
  apply (fileinfo_not_done f). unfold fileinfo_message, done_message. by rewrite H.
Qed.

Lemma serialised_read s n blob :
  serialised s → FileStream._reads s !! n = Some blob →
  FileStream._state s = FileStream.sending
  ∧ n = 0%nat ∧ FileStream._reads s = [blob].
Proof.
  intros [Hlen Hst] Hn.
  destruct (FileStream._reads s) as [| b [| b' rs]] eqn:Hrd; cbn in Hlen.
  - done.
  - destruct n as [| n]; [| done]. injection Hn as ->.
    split; [apply Hst; discriminate | done].
  - lia.
Qed.

Lemma guarded_handles messageSize s ev s' :
  handles messageSize s ev s' →
  serialised s ∧ done_once s → serialised s' ∧ done_once s'.
Proof.
  intros Hstep [Hser Hdone].
  assert (FileStream._state s ≠ FileStream.sending → FileStream._reads s = [])
    as Hidle.
  { intros Hst. destruct Hser as [_ Hser].
    destruct (FileStream._reads s); [done |]. exfalso. by apply Hst, Hser. }
  destruct Hstep as [e Hst | e Hst Hge | e Hst | e accepts Hst Hlt
                    | e accepts Hst | n blob Hn | n blob Hn | n blob Hn | ev Hn];
    try done;
    try (destruct (serialised_read _ _ _ Hser Hn) as (Hst & -> & Hrd));
    unfold serialised, done_once in *; cbn -[count_done];
    unfold sent in *; cbn -[count_done];
    try rewrite Hst in *; try rewrite Hrd; cbn -[count_done].
  - rewrite count_done_snoc, fileinfo_is_not_done.
    rewrite Hidle by done. split; [split; [cbn; lia | done] |].
    split; [apply Hdone | destruct Hdone as [_ ->]; done].
  - rewrite count_done_snoc. rewrite Hidle by done.
    split; [split; [cbn; lia | done] |].
    split; [apply Hdone |]. split; [lia |]. by destruct Hdone as [_ ->].
  - rewrite Hidle by done. split; [split; [cbn; lia | done] |].
    split; [lia | apply Hdone].
  - rewrite count_done_snoc. split; [split; [lia | done] |].
    split; [apply Hdone |]. by destruct Hdone as [_ ->].
  - split; [split; [lia | done] | done].
  - split; [split; [lia | done] | done].
Qed.

Lemma guarded_run messageSize uuid f evs :
  let s := FileStream.run messageSize (FileStream.new uuid f) evs in
  FileStream.file s = f ∧ FileStream.dispatched s = []
  ∧ serialised s ∧ done_once s.
Proof.
  cbn.
  assert (FileStream.file (FileStream.new uuid f) = f
          ∧ FileStream.dispatched (FileStream.new uuid f) = []
          ∧ serialised (FileStream.new uuid f)
          ∧ done_once (FileStream.new uuid f)) as Hnew.
  { split_and!; try done.
    - split; [cbn; lia | done].
    - split; [unfold File.size; cbn; lia | done]. }
  revert Hnew. generalize (FileStream.new uuid f).
  induction evs as [| ev evs IH]; intros s Hs; [done |].
  cbn. apply IH.
  pose proof (step_handles messageSize s ev) as Hstep.
  destruct (handles_file _ _ _ _ Hstep) as [-> ->].
  destruct Hs as (Hf & Hd & Hg). split; [done |]. split; [done |].
  by apply (guarded_handles messageSize s ev).
Qed.

(** C6: the done message is handed to the channel at most once, and the
    step that hands it over finds, and leaves, [offset] equal to the size of
    the file. *)
Theorem done_sent_once messageSize uuid f evs :
  let s := FileStream.run messageSize (FileStream.new uuid f) evs in
  (count_done (sent s) ≤ 1)%nat
  ∧ ∀ ev,
      sent (FileStream.step messageSize s ev) = sent s ++ [done_message] →
      FileStream.offset s = File.size f
      ∧ FileStream.offset (FileStream.step messageSize s ev) = File.size f
      ∧ count_done (sent (FileStream.step messageSize s ev)) = 1%nat.
Proof.
  intros s.
  destruct (guarded_run messageSize uuid f evs) as (Hf & _ & Hser & Hdone).
  fold s in Hf, Hser, Hdone. split.
  - destruct Hdone as [_ Hdone].
    destruct (FileStream._state s); lia.
  - intros ev Hsent.
    assert (∀ l (m : Message), l ≠ l ++ [m]) as Hgrows.
    { intros l m H. apply (f_equal length) in H. rewrite length_app in H.
      cbn in H. lia. }
    destruct (step_handles messageSize s ev)
      as [e Hst | e Hst Hge | e Hst | e accepts Hst Hlt
         | e accepts Hst | n blob Hn | n blob Hn | n blob Hn | ev Hn];
      cbn in Hsent; try (by apply Hgrows in Hsent).
    + apply app_inv_head in Hsent. injection Hsent as Hsent.
      by destruct (fileinfo_not_done (FileStream.file s)).
    + destruct Hdone as [Hle Hdone]. rewrite Hst in Hdone. rewrite Hf in *.
      cbn -[count_done]. split_and!; [lia | lia |].
      by rewrite count_done_snoc, Hdone.
    + by apply app_inv_head in Hsent.
Qed.

Lemma done_sent_once_witness :
  FileStream.offset
    (FileStream.run 2 (FileStream.new "u" empty_file)
       [FileStream.Fire FileStream.open true])
  = File.size empty_file.
Proof.
  apply (done_sent_once 2 "u" empty_file [FileStream.Fire FileStream.open true])
    with (ev := FileStream.Fire FileStream.bufferedamountlow true).
  vm_compute. reflexivity.
Defined.

(** C7: in the 'sending' state a channel event, 'bufferedamountlow' or
    'open', changes nothing but the console: not the state, not the offset,
    not what the channel was handed, not the read under way. The state is
    left only when the read under way yields and the channel accepts its
    bytes, and no stream ever has more than one read under way. *)
Theorem sending_passes_events messageSize :
  (∀ s e accepts,
     FileStream._state s = FileStream.sending →
     let s' := FileStream.step messageSize s (FileStream.Fire e accepts) in
     s' = FileStream.logged (FileStream.PassingState FileStream.sending) s
     ∧ FileStream._state s' = FileStream.sending
     ∧ FileStream.offset s' = FileStream.offset s
     ∧ sent s' = sent s
     ∧ FileStream._reads s' = FileStream._reads s
     ∧ FileStream.dispatched s' = FileStream.dispatched s)
  ∧ (∀ s ev,
       FileStream._state s = FileStream.sending →
       FileStream._state (FileStream.step messageSize s ev) ≠ FileStream.sending →
       ∃ n blob,
         ev = FileStream.Fulfil n true
         ∧ FileStream._reads s !! n = Some blob
         ∧ sent (FileStream.step messageSize s ev) = sent s ++ [Binary blob])
  ∧ (∀ uuid f evs,
       let s := FileStream.run messageSize (FileStream.new uuid f) evs in
       (length (FileStream._reads s) ≤ 1)%nat
       ∧ (FileStream._reads s ≠ [] → FileStream._state s = FileStream.sending)).
Proof.
  split_and!.
  - intros s e accepts Hst s'.
    assert (s' = FileStream.logged (FileStream.PassingState FileStream.sending) s)
      as ->; [| done].
    subst s'. unfold_handler. by rewrite Hst.
  - intros s ev Hst Hleft.
    destruct (step_handles messageSize s ev)
      as [e Hst' | e Hst' Hge | e Hst' | e accepts Hst' Hlt
         | e accepts Hst' | n blob Hn | n blob Hn | n blob Hn | ev Hn];
      try congruence; try (by destruct Hleft).
    by exists n, blob.
  - intros uuid f evs s.
    by destruct (guarded_run messageSize uuid f evs) as (_ & _ & Hser & _).
Qed.

Lemma sending_passes_events_witness :
  FileStream._state five_bytes_reading = FileStream.sending
  ∧ sent (FileStream.step 2 five_bytes_reading
            (FileStream.Fire FileStream.bufferedamountlow true))
    = sent five_bytes_reading
  ∧ ∃ n blob,
      FileStream.Fulfil 0 true = FileStream.Fulfil n true
      ∧ FileStream._reads five_bytes_reading !! n = Some blob
      ∧ sent (FileStream.step 2 five_bytes_reading (FileStream.Fulfil 0 true))
        = sent five_bytes_reading ++ [Binary blob].
Proof.
  destruct (sending_passes_events 2) as (Hpass & Hleft & _).
  split; [reflexivity |]. split.
  - apply (Hpass five_bytes_reading FileStream.bufferedamountlow true). reflexivity.
  - apply (Hleft five_bytes_reading (FileStream.Fulfil 0 true)); [reflexivity |].
    vm_compute. discriminate.
Defined.

(** ** Errors in the handler *)

(** A stream in 'sending' with no read under way stays as it is. *)
Lemma stalled_run messageSize s evs :
  FileStream._state s = FileStream.sending → FileStream._reads s = [] →
  let s' := FileStream.run messageSize s evs in
  FileStream._state s' = FileStream.sending
  ∧ FileStream._reads s' = []
  ∧ FileStream.offset s' = FileStream.offset s
  ∧ sent s' = sent s
  ∧ FileStream.dispatched s' = FileStream.dispatched s.
Proof.
  revert s. induction evs as [| ev evs IH]; intros s Hst Hrd; [done |].
  cbn.
  assert (FileStream._state (FileStream.step messageSize s ev) = FileStream.sending
          ∧ FileStream._reads (FileStream.step messageSize s ev) = []
          ∧ FileStream.offset (FileStream.step messageSize s ev) = FileStream.offset s
          ∧ sent (FileStream.step messageSize s ev) = sent s
          ∧ FileStream.dispatched (FileStream.step messageSize s ev)
            = FileStream.dispatched s) as (Hst' & Hrd' & <- & <- & <-).
  { destruct (step_handles messageSize s ev)
      as [e Hst' | e Hst' Hge | e Hst' | e accepts Hst' Hlt
         | e accepts Hst' | n blob Hn | n blob Hn | n blob Hn | ev Hn];
      try congruence; try done;
      rewrite Hrd in Hn; by destruct n. }
  by apply IH.
Qed.

Lemma sendMessage_fileinfo messageSize s e :
  FileStream._state s = FileStream.fileinfo →
  FileStream.step messageSize s (FileStream.Fire e true)
  = FileStream.with_state FileStream.send
      (has_sent (fileinfo_message (FileStream.file s)) s).
Proof. intros Hst. unfold_handler. by rewrite Hst. Qed.

Lemma sendMessage_done messageSize s e :
  FileStream._state s = FileStream.send →
  File.size (FileStream.file s) ≤ FileStream.offset s →
  FileStream.step messageSize s (FileStream.Fire e true)
  = FileStream.with_state FileStream.done (has_sent done_message s).
Proof.
  intros Hst Hge. unfold_handler. rewrite Hst.
  destruct (Z.geb_spec (FileStream.offset s) (File.size (FileStream.file s)));
    [done | lia].
Qed.

Lemma sendMessage_chunk messageSize s e accepts :
  FileStream._state s = FileStream.send →
  FileStream.offset s < File.size (FileStream.file s) →
  FileStream.step messageSize s (FileStream.Fire e accepts)
  = FileStream.with_reads
      (FileStream._reads s
       ++ [File.slice (FileStream.file s) (FileStream.offset s)
             (Z.min (FileStream.offset s + messageSize)
                    (File.size (FileStream.file s)))])
      (FileStream.with_offset
         (Z.min (FileStream.offset s + messageSize) (File.size (FileStream.file s)))
         (FileStream.with_state FileStream.sending s)).
Proof.
  intros Hst Hlt. unfold_handler. rewrite Hst.
  destruct (Z.geb_spec (FileStream.offset s) (File.size (FileStream.file s)));
    [lia | done].
Qed.

Lemma sendMessage_pass messageSize s e accepts :
  FileStream._state s = FileStream.sending ∨ FileStream._state s = FileStream.done →
  FileStream.step messageSize s (FileStream.Fire e accepts)
  = FileStream.logged (FileStream.PassingState (FileStream._state s)) s.
Proof. intros [Hst | Hst]; unfold_handler; by rewrite Hst. Qed.

(** While a read is under way, channel events change nothing but the
    console. *)
Lemma passes_while_reading messageSize s passes :
  FileStream._state s = FileStream.sending →
  Forall (λ ev, ∃ e accepts, ev = FileStream.Fire e accepts) passes →
  let s' := FileStream.run messageSize s passes in
  FileStream._state s' = FileStream.sending
  ∧ FileStream._reads s' = FileStream._reads s
  ∧ FileStream.offset s' = FileStream.offset s
  ∧ sent s' = sent s
  ∧ FileStream.dispatched s' = FileStream.dispatched s.
Proof.
  revert s. induction passes as [| ev passes IH]; intros s Hst Hall; [done |].
  apply Forall_cons in Hall as [(e & accepts & ->) Hall].
  change (FileStream.run messageSize s (?ev :: passes))
    with (FileStream.run messageSize (FileStream.step messageSize s ev) passes).
  rewrite sendMessage_pass by (by left).
  specialize (IH (FileStream.logged
                    (FileStream.PassingState (FileStream._state s)) s)).
  cbv zeta in IH |- *.
  by destruct IH as (-> & -> & -> & -> & ->).
Qed.

(** C4, as the code has it: an error of a read or of a [send] is caught in
    [_sendMessage]; nothing is handed to the channel, no event is dispatched
    and the offset stays where it is. A refused control message leaves the
    stream as the handler found it but for the console, and the next event
    that finds the channel willing sends that message. A chunk whose read
    fails or which the channel refuses leaves the stream in 'sending' with no
    read under way, and every later event leaves state, offset and channel
    as they are. That is not the state its handler was entered in: a handler
    entered in 'send' with bytes left, whose chunk is lost after any number
    of channel events, leaves the stream in 'sending', the offset past the
    chunk. *)
Theorem errors_are_caught messageSize uuid f evs :
  let s := FileStream.run messageSize (FileStream.new uuid f) evs in
  (∀ ev err,
     let s' := FileStream.step messageSize s ev in
     FileStream.console s' = FileStream.console s ++ [FileStream.ErrorIn err] →
     sent s' = sent s
     ∧ FileStream.dispatched s' = []
     ∧ FileStream.offset s' = FileStream.offset s
     ∧ (((∃ e, ev = FileStream.Fire e false)
         ∧ s' = FileStream.logged (FileStream.ErrorIn FileStream.SendError) s
         ∧ ∃ m, ∀ e, sent (FileStream.step messageSize s' (FileStream.Fire e true))
                     = sent s ++ [m])
        ∨ ((ev = FileStream.Reject 0 ∨ ev = FileStream.Fulfil 0 false)
           ∧ FileStream._state s = FileStream.sending
           ∧ ∀ evs',
               let s'' := FileStream.run messageSize s' evs' in
               FileStream._state s'' = FileStream.sending
               ∧ FileStream._reads s'' = []
               ∧ FileStream.offset s'' = FileStream.offset s
               ∧ sent s'' = sent s
               ∧ FileStream.dispatched s'' = [])))
  ∧ (∀ e accepts passes ev,
       FileStream._state s = FileStream.send →
       FileStream.offset s < File.size f →
       Forall (λ ev, ∃ e accepts, ev = FileStream.Fire e accepts) passes →
       ev = FileStream.Reject 0 ∨ ev = FileStream.Fulfil 0 false →
       let s' := FileStream.step messageSize
                   (FileStream.run messageSize
                      (FileStream.step messageSize s (FileStream.Fire e accepts))
                      passes) ev in
       FileStream._state s' = FileStream.sending
       ∧ FileStream.offset s' = Z.min (FileStream.offset s + messageSize) (File.size f)
       ∧ FileStream._reads s' = []
       ∧ sent s' = sent s).
Proof.
  intros s.
  destruct (guarded_run messageSize uuid f evs) as (Hf & Hd & Hser & Hdone).
  fold s in Hf, Hd, Hser, Hdone.
  assert (∀ (l : list FileStream.LogLine) x, l ≠ l ++ [x]) as Hgrows.
  { intros l x H. apply (f_equal length) in H. rewrite length_app in H.
    cbn in H. lia. }
  split.
  - intros ev err s' Hlog. subst s'.
    destruct (step_handles messageSize s ev)
      as [e Hst | e Hst Hge | e Hst | e accepts Hst Hlt
         | e accepts Hst | n blob Hn | n blob Hn | n blob Hn | ev Hn];
      cbn in Hlog; try (by apply Hgrows in Hlog);
      try (apply app_inv_head in Hlog; discriminate Hlog).
    + (* a control message is refused *)
      split_and!; try done. left. split; [by exists e |]. split; [done |].
      destruct Hst as [Hst | [Hst Hge]].
      * exists (fileinfo_message (FileStream.file s)). intros e'.
        by rewrite sendMessage_fileinfo.
      * exists done_message. intros e'.
        by rewrite sendMessage_done.
    + (* the channel refuses the chunk *)
      destruct (serialised_read _ _ _ Hser Hn) as (Hst & -> & Hrd).
      split_and!; try done. right. split; [by right |]. split; [done |].
      intros evs'. rewrite <- Hd.
      apply (stalled_run messageSize
               (FileStream.logged (FileStream.ErrorIn FileStream.SendError)
                  (FileStream.with_reads (delete 0%nat (FileStream._reads s)) s)));
        [done | cbn; by rewrite Hrd].
    + (* the read fails *)
      destruct (serialised_read _ _ _ Hser Hn) as (Hst & -> & Hrd).
      split_and!; try done. right. split; [by left |]. split; [done |].
      intros evs'. rewrite <- Hd.
      apply (stalled_run messageSize
               (FileStream.logged (FileStream.ErrorIn FileStream.ReadError)
                  (FileStream.with_reads (delete 0%nat (FileStream._reads s)) s)));
        [done | cbn; by rewrite Hrd].
  - intros e accepts passes ev Hst Hlt Hpasses Hev s'.
    assert (FileStream._reads s = []) as Hrd.
    { destruct Hser as [_ Hser]. destruct (FileStream._reads s); [done |].
      rewrite Hser in Hst; done. }
    rewrite <- Hf in *. subst s'.
    rewrite sendMessage_chunk by done. rewrite Hrd.
    set (s1 := FileStream.with_reads _ _).
    pose proof (passes_while_reading messageSize s1 passes) as Hp.
    cbv zeta in Hp.
    destruct Hp as (Hst' & Hrd' & Hoff' & Hsent' & _); [done | done |].
    revert Hst' Hrd' Hoff' Hsent'.
    generalize (FileStream.run messageSize s1 passes).
    intros s2 Hst' Hrd' Hoff' Hsent'. subst s1. cbn in Hrd', Hoff', Hsent'.
    unfold sent in *.
    destruct Hev as [-> | ->]; unfold_handler; rewrite Hrd'; cbn;
      by rewrite Hst', Hoff', Hsent'.
Qed.

Lemma errors_are_caught_witness :
  FileStream._state
    (FileStream.run 2 five_bytes_opened
       [FileStream.Fire FileStream.bufferedamountlow true; FileStream.Reject 0])
  = FileStream.sending
  ∧ FileStream.offset
      (FileStream.run 2 five_bytes_opened
         [FileStream.Fire FileStream.bufferedamountlow true;
          FileStream.Fire FileStream.bufferedamountlow true;
          FileStream.Fulfil 0 false])
    = Z.min (0 + 2) 5.
Proof.
  destruct (errors_are_caught 2 "u" five_bytes
              [FileStream.Fire FileStream.open true;
               FileStream.Fire FileStream.bufferedamountlow true])
    as [Hcaught _].
  destruct (errors_are_caught 2 "u" five_bytes
              [FileStream.Fire FileStream.open true])
    as [_ Hlost].
  split.
  - destruct (Hcaught (FileStream.Reject 0) FileStream.ReadError)
      as (_ & _ & _ & [[[e He] _] | (_ & _ & Hstall)]).
    + vm_compute. reflexivity.
    + discriminate He.
    + apply (Hstall []).
  - apply (Hlost FileStream.bufferedamountlow true
             [FileStream.Fire FileStream.bufferedamountlow true]
             (FileStream.Fulfil 0 false)).
    + reflexivity.
    + vm_compute. reflexivity.
    + apply Forall_singleton. by exists FileStream.bufferedamountlow, true.
    + by right.
Defined.

(** C4 as it is claimed fails: a handler entered in 'send' at offset 0,
    whose read fails, returns in 'sending' at offset 2. *)
Lemma chunk_error_changes_state :
  FileStream.console
    (FileStream.run 2 five_bytes_opened
       [FileStream.Fire FileStream.bufferedamountlow true; FileStream.Reject 0])
  = FileStream.console five_bytes_opened
    ++ [FileStream.ErrorIn FileStream.ReadError]
  ∧ FileStream._state five_bytes_opened = FileStream.send
  ∧ FileStream.offset five_bytes_opened = 0
  ∧ FileStream._state
      (FileStream.run 2 five_bytes_opened
         [FileStream.Fire FileStream.bufferedamountlow true; FileStream.Reject 0])
    = FileStream.sending
  ∧ FileStream.offset
      (FileStream.run 2 five_bytes_opened
         [FileStream.Fire FileStream.bufferedamountlow true; FileStream.Reject 0])
    = 2
  ∧ ¬ (FileStream._state
         (FileStream.run 2 five_bytes_opened
            [FileStream.Fire FileStream.bufferedamountlow true;
             FileStream.Reject 0])
       = FileStream._state five_bytes_opened
       ∧ FileStream.offset
           (FileStream.run 2 five_bytes_opened
              [FileStream.Fire FileStream.bufferedamountlow true;
               FileStream.Reject 0])
         = FileStream.offset five_bytes_opened).
Proof.
  split_and!; try (vm_compute; reflexivity).
  vm_compute. intros [H _]. discriminate H.
Qed.

(** ** The Dropper: bytes sent *)

Lemma bytesSent_from (l : list FileStream.t) (acc : Z) :
  foldl (λ bytesSent fileStream, bytesSent + FileStream.offset fileStream) acc l
  = acc + sum_offsets l.
Proof.
  revert acc. induction l as [| s l IH]; intros acc; cbn; [lia |].
  rewrite IH. lia.
Qed.

Lemma step_offset_le messageSize s ev :
  0 ≤ messageSize →
  FileStream.offset s ≤ FileStream.offset (FileStream.step messageSize s ev).
Proof.
  intros Hms. destruct (step_handles messageSize s ev); cbn; lia.
Qed.

Lemma sum_offsets_insert (l : list FileStream.t) i s s' :
  l !! i = Some s → FileStream.offset s ≤ FileStream.offset s' →
  sum_offsets l ≤ sum_offsets (<[i := s']> l).
Proof.
  revert i. induction l as [| x l IH]; intros [| i] Hi Hle; try done; cbn in *.
  - injection Hi as ->. lia.
  - apply Z.add_le_mono_l. by apply IH.
Qed.

Lemma resume_fileStreams d :
  Dropper._fileStreams (Dropper._awaitFileStreams_resume d)
  = Dropper._fileStreams d.
Proof.
  unfold Dropper._awaitFileStreams_resume.
  destruct (Dropper._awaiting d); [| done].
  by destruct (Dropper.Promise_all (Dropper._promises d)).
Qed.

Lemma step_sum_offsets messageSize d ev :
  0 ≤ messageSize →
  sum_offsets (Dropper._fileStreams d)
  ≤ sum_offsets (Dropper._fileStreams (Dropper.step messageSize d ev)).
Proof.
  intros Hms. unfold Dropper.step. rewrite resume_fileStreams.
  destruct ev as [i ev | [data | |]]; cbn; try lia.
  destruct (Dropper._fileStreams d !! i) as [s |] eqn:Hi; [| cbn; lia].
  case_decide; cbn; eapply sum_offsets_insert; eauto using step_offset_le.
Qed.

(** C8: [bytesSent] is the sum of the offsets of the file streams as they
    are when it is read, and no event makes it smaller: a later read never
    returns less than an earlier one. *)
Theorem bytesSent_sums_offsets messageSize :
  0 ≤ messageSize →
  (∀ d, Dropper.bytesSent d = sum_offsets (Dropper._fileStreams d))
  ∧ (∀ d ev, Dropper.bytesSent d ≤ Dropper.bytesSent (Dropper.step messageSize d ev))
  ∧ (∀ d evs evs',
       Dropper.bytesSent (Dropper.run messageSize d evs)
       ≤ Dropper.bytesSent (Dropper.run messageSize d (evs ++ evs'))).
Proof.
  intros Hms.
  assert (∀ d, Dropper.bytesSent d = sum_offsets (Dropper._fileStreams d)) as Hsum.
  { intros d. unfold Dropper.bytesSent. by rewrite bytesSent_from. }
  split_and!; [done | |].
  - intros d ev. rewrite !Hsum. by apply step_sum_offsets.
  - intros d evs evs'. unfold Dropper.run. rewrite foldl_app.
    generalize (foldl (Dropper.step messageSize) d evs). clear d evs.
    induction evs' as [| ev evs' IH]; intros d; [done |].
    cbn. etrans; [| apply IH]. rewrite !Hsum. by apply step_sum_offsets.
Qed.

Lemma bytesSent_sums_offsets_witness :
  0 ≤ 4
  ∧ Dropper.bytesSent
      (Dropper.run 4 (Dropper.new uuids three_files) second_read_fails)
    = 0 + (2 + (5 + 0)).
Proof.
  split; [lia |].
  destruct (bytesSent_sums_offsets 4) as (Hsum & _); [lia |].
  rewrite Hsum. vm_compute. reflexivity.
Defined.

(** ** The Dropper: the events of the peer *)

Lemma resume_settled d : settled (Dropper._awaitFileStreams_resume d).
Proof.
  unfold settled, Dropper._awaitFileStreams_resume.
  destruct (Dropper._awaiting d) eqn:Haw; [| congruence].
  by destruct (Dropper.Promise_all (Dropper._promises d)) eqn:Hall.
Qed.

Lemma resume_when_settled d : settled d → Dropper._awaitFileStreams_resume d = d.
Proof.
  unfold settled, Dropper._awaitFileStreams_resume. intros Hd.
  destruct (Dropper._awaiting d); [| done]. by rewrite Hd.
Qed.

Lemma run_settled messageSize uuid_v4 files evs :
  settled (Dropper.run messageSize (Dropper.new uuid_v4 files) evs).
Proof.
  induction evs as [| ev evs _] using rev_ind.
  - apply resume_settled.
  - unfold Dropper.run. rewrite foldl_app. apply resume_settled.
Qed.

(** C9, as the code has it: 'connected' and 'disconnected' of the peer are
    dispatched by the Dropper under the same name; 'registered' stores the
    identifier it carries in [id] and is dispatched as 'idchanged'. Nothing
    else of the Dropper changes. *)
Theorem peer_events_relayed messageSize uuid_v4 files evs :
  let d := Dropper.run messageSize (Dropper.new uuid_v4 files) evs in
  Dropper.step messageSize d (Dropper.Peer Dropper.connected)
  = Dropper.dispatchEvent "connected" d
  ∧ Dropper.step messageSize d (Dropper.Peer Dropper.disconnected)
    = Dropper.dispatchEvent "disconnected" d
  ∧ ∀ data,
      Dropper.step messageSize d (Dropper.Peer (Dropper.registered data))
      = Dropper.dispatchEvent "idchanged" (Dropper.set_id data d)
      ∧ Dropper.id (Dropper.step messageSize d (Dropper.Peer (Dropper.registered data)))
        = Some data
      ∧ Dropper.dispatched
          (Dropper.step messageSize d (Dropper.Peer (Dropper.registered data)))
        = Dropper.dispatched d ++ ["idchanged"].
Proof.
  intros d. pose proof (run_settled messageSize uuid_v4 files evs) as Hd.
  fold d in Hd. unfold Dropper.step. cbn.
  split_and!; [by apply resume_when_settled | by apply resume_when_settled |].
  intros data.
  by rewrite (resume_when_settled
                (Dropper.dispatchEvent "idchanged" (Dropper.set_id data d))).
Qed.

(** C9 as it is claimed fails: the Dropper does not dispatch 'registered'. *)
Lemma registered_is_renamed :
  Dropper.dispatched
    (Dropper.step 4 (Dropper.new uuids three_files)
       (Dropper.Peer (Dropper.registered "drop-1")))
  ≠ Dropper.dispatched (Dropper.new uuids three_files)
    ++ [signal (Dropper.registered "drop-1")].
Proof. vm_compute. discriminate. Qed.

(** ** The Dropper: waiting for the streams *)

Lemma resolve_rejected p : Dropper.resolve p = Rejected → p = Rejected.
Proof. by destruct p. Qed.

Lemma alter_resolve_rejected (ps : list Dropper.PromiseState) i :
  Rejected ∈ alter Dropper.resolve i ps → Rejected ∈ ps.
Proof.
  revert i. induction ps as [| p ps IH]; intros [| i]; cbn; try done.
  - rewrite !elem_of_cons. intros [H | H]; [left | by right].
    symmetry. by apply resolve_rejected.
  - rewrite !elem_of_cons. intros [H | H]; [by left | right; eauto].
Qed.

Lemma Promise_all_rejected ps :
  Dropper.Promise_all ps = Rejected → Rejected ∈ ps.
Proof.
  unfold Dropper.Promise_all. case_decide; [done |]. by case_decide.
Qed.

Lemma unfailed_resume d :
  unfailed d → unfailed (Dropper._awaitFileStreams_resume d).
Proof.
  intros [Hps Hd]. unfold Dropper._awaitFileStreams_resume.
  destruct (Dropper._awaiting d); [| done].
  destruct (Dropper.Promise_all (Dropper._promises d)) eqn:Hall; [done | |].
  - split; [done |]. cbn. rewrite elem_of_app, list_elem_of_singleton.
    intros [H | H]; [done | discriminate H].
  - by apply Promise_all_rejected in Hall.
Qed.

Lemma unfailed_handle messageSize d ev :
  unfailed d → unfailed (Dropper.handle messageSize d ev).
Proof.
  intros [Hps Hd].
  destruct ev as [i ev | [data | |]]; cbn.
  - destruct (Dropper._fileStreams d !! i); [| done].
    case_decide as Hfired; [| done].
    split; [| done]. cbn. intros Hrej. by apply alter_resolve_rejected in Hrej.
  - split; [done |]. cbn. rewrite elem_of_app, list_elem_of_singleton.
    intros [H | H]; [done | discriminate H].
  - split; [done |]. cbn. rewrite elem_of_app, list_elem_of_singleton.
    intros [H | H]; [done | discriminate H].
  - split; [done |]. cbn. rewrite elem_of_app, list_elem_of_singleton.
    intros [H | H]; [done | discriminate H].
Qed.

Lemma constructor_fields uuid_v4 files : ∀ d,
  let d' := foldl (Dropper.start_fileStream uuid_v4) d files in
  Dropper.dispatched d' = Dropper.dispatched d
  ∧ length (Dropper._fileStreams d')
    = (length (Dropper._fileStreams d) + length files)%nat
  ∧ (Forall (λ s, FileStream.dispatched s = []) (Dropper._fileStreams d) →
     Forall (λ s, FileStream.dispatched s = []) (Dropper._fileStreams d')).
Proof.
  induction files as [| file files IH]; intros d; cbn.
  - split_and!; [done | lia | done].
  - destruct (IH (Dropper.start_fileStream uuid_v4 d file)) as (Hd & Hlen & Hall).
    split_and!.
    + by rewrite Hd.
    + rewrite Hlen. cbn. rewrite length_app. cbn. lia.
    + intros Hnone. apply Hall. cbn. apply Forall_app. split; [done |].
      by apply Forall_singleton.
Qed.

Lemma unfailed_run messageSize uuid_v4 files evs :
  unfailed (Dropper.run messageSize (Dropper.new uuid_v4 files) evs).
Proof.
  assert (unfailed (Dropper.new uuid_v4 files)) as Hnew.
  { apply unfailed_resume. split; cbn.
    - intros H. apply list_elem_of_fmap in H as (? & ? & _). done.
    - destruct (constructor_fields uuid_v4 files (Dropper.mk [] None [] 0 [] false [] []))
        as (-> & _). apply not_elem_of_nil. }
  revert Hnew. generalize (Dropper.new uuid_v4 files).
  induction evs as [| ev evs IH]; intros d Hd; [done |].
  cbn. apply IH. by apply unfailed_resume, unfailed_handle.
Qed.

(** C10: whatever the batch and whatever happens, the Dropper does not
    dispatch 'failed': none of the promises [_awaitFileStreams] waits for is
    ever rejected. *)
Theorem failed_never_dispatched messageSize uuid_v4 files evs :
  let d := Dropper.run messageSize (Dropper.new uuid_v4 files) evs in
  ("failed" ∉ Dropper.dispatched d)
  ∧ (Rejected ∉ Dropper._promises d)
  ∧ Dropper.Promise_all (Dropper._promises d) ≠ Rejected.
Proof.
  intros d. destruct (unfailed_run messageSize uuid_v4 files evs) as [Hps Hd].
  split_and!; try done. intros H. by apply Promise_all_rejected in H.
Qed.

(** ** What a FileStream and its Dropper leave undone *)

Lemma Promise_all_pending ps :
  ps ≠ [] → Forall (λ p, p = Pending) ps → Dropper.Promise_all ps = Pending.
Proof.
  intros Hne Hall. unfold Dropper.Promise_all.
  case_decide as Hrej.
  - rewrite Forall_forall in Hall. by apply Hall in Hrej.
  - case_decide as Hful; [| done].
    destruct ps as [| p ps]; [done |].
    apply Forall_cons in Hall as [-> _]. by apply Forall_cons in Hful as [? _].
Qed.

Lemma waiting_step messageSize d ev :
  waiting d → waiting (Dropper.step messageSize d ev).
Proof.
  intros (Hne & Hps & Hss & Haw & Hdone & Hfailed).
  assert (waiting (Dropper.handle messageSize d ev)) as Hd'.
  { destruct ev as [i ev | [data | |]]; cbn.
    - destruct (Dropper._fileStreams d !! i) as [s |] eqn:Hi; [| done].
      pose proof (step_handles messageSize s ev) as Hstep.
      apply handles_file in Hstep as [_ Hdisp].
      rewrite Hdisp, drop_all. case_decide as Hfired; [by apply elem_of_nil in Hfired |].
      split_and!; try done. cbn. apply Forall_insert; [done |].
      rewrite Hdisp. rewrite Forall_forall in Hss. apply Hss.
      by apply list_elem_of_lookup_2 in Hi.
    - split_and!; try done; cbn; rewrite elem_of_app, list_elem_of_singleton;
        intros [H | H]; try done; discriminate H.
    - split_and!; try done; cbn; rewrite elem_of_app, list_elem_of_singleton;
        intros [H | H]; try done; discriminate H.
    - split_and!; try done; cbn; rewrite elem_of_app, list_elem_of_singleton;
        intros [H | H]; try done; discriminate H. }
  unfold Dropper.step. rewrite resume_when_settled; [done |].
  intros _. destruct Hd' as (Hne' & Hps' & _). by apply Promise_all_pending.
Qed.

(** The Dropper of a batch that is not empty waits for ever: no stream
    dispatches the 'done' its promise is resolved by. *)
Lemma waiting_run messageSize uuid_v4 files evs :
  files ≠ [] →
  waiting (Dropper.run messageSize (Dropper.new uuid_v4 files) evs).
Proof.
  intros Hfiles.
  assert (waiting (Dropper.new uuid_v4 files)) as Hnew.
  { destruct (constructor_fields uuid_v4 files (Dropper.mk [] None [] 0 [] false [] []))
      as (Hd & Hlen & Hall). cbn in Hd, Hlen, Hall.
    assert (waiting (Dropper.constructor uuid_v4 files)) as Hw.
    { split_and!; cbn; try done.
      - intros H. apply (f_equal length) in H. rewrite length_map, Hlen in H.
        destruct files; [done | cbn in H; lia].
      - apply Forall_fmap. by apply Forall_true.
      - by apply Hall.
      - rewrite Hd. apply not_elem_of_nil.
      - rewrite Hd. apply not_elem_of_nil. }
    unfold Dropper.new. rewrite resume_when_settled; [done |].
    intros _. destruct Hw as (Hne' & Hps' & _). by apply Promise_all_pending. }
  revert Hnew. generalize (Dropper.new uuid_v4 files).
  induction evs as [| ev evs IH]; intros d Hd; [done |].
  cbn. apply IH. by apply waiting_step.
Qed.

(** Once in 'done' a stream is not moved by any event. *)
Lemma done_is_final messageSize uuid f evs ev :
  let s := FileStream.run messageSize (FileStream.new uuid f) evs in
  let s' := FileStream.step messageSize s ev in
  FileStream._state s ≠ FileStream.done
  ∨ (FileStream._state s' = FileStream.done
     ∧ FileStream.offset s' = FileStream.offset s
     ∧ sent s' = sent s
     ∧ FileStream._reads s' = []).
Proof.
  intros s s'.
  destruct (FileStream._state s) eqn:Hst; [by left | by left | by left | right].
  destruct (guarded_run messageSize uuid f evs) as (_ & _ & Hser & _).
  fold s in Hser.
  assert (FileStream._reads s = []) as Hrd.
  { destruct Hser as [_ Hser]. destruct (FileStream._reads s); [done |].
    rewrite Hser in Hst; done. }
  subst s'.
  destruct (step_handles messageSize s ev)
    as [e Hst' | e Hst' Hge | e Hst' | e accepts Hst' Hlt
       | e accepts Hst' | n blob Hn | n blob Hn | n blob Hn | ev Hn];
    try congruence; try done;
    try (rewrite Hrd in Hn; by destruct n).
Qed.

(** C2 fails on the code: the done message of an empty file is sent by the
    second event, the stream is in 'done', and it has dispatched no event;
    the Dropper that owns it has dispatched nothing either and goes on
    waiting for the promise of that stream. Nor does any other run of any
    stream dispatch an event. What C2 says of the time after the done
    message holds: a stream in 'done' stays as it is. *)
Theorem done_message_without_done_event :
  sent (FileStream.run 2 (FileStream.new "u" empty_file)
          [FileStream.Fire FileStream.open true;
           FileStream.Fire FileStream.bufferedamountlow true])
  = transfer empty_file []
  ∧ FileStream._state
      (FileStream.run 2 (FileStream.new "u" empty_file)
         [FileStream.Fire FileStream.open true;
          FileStream.Fire FileStream.bufferedamountlow true])
    = FileStream.done
  ∧ FileStream.dispatched
      (FileStream.run 2 (FileStream.new "u" empty_file)
         [FileStream.Fire FileStream.open true;
          FileStream.Fire FileStream.bufferedamountlow true])
    = []
  ∧ Dropper.dispatched
      (Dropper.run 2 (Dropper.new uuids [empty_file])
         [Dropper.Stream 0 (FileStream.Fire FileStream.open true);
          Dropper.Stream 0 (FileStream.Fire FileStream.bufferedamountlow true)])
    = []
  ∧ Dropper._promises
      (Dropper.run 2 (Dropper.new uuids [empty_file])
         [Dropper.Stream 0 (FileStream.Fire FileStream.open true);
          Dropper.Stream 0 (FileStream.Fire FileStream.bufferedamountlow true)])
    = [Pending]
  ∧ (∀ messageSize uuid f evs,
       FileStream.dispatched
         (FileStream.run messageSize (FileStream.new uuid f) evs)
       = [])
  ∧ ∀ messageSize uuid f evs ev,
      let s := FileStream.run messageSize (FileStream.new uuid f) evs in
      let s' := FileStream.step messageSize s ev in
      FileStream._state s ≠ FileStream.done
      ∨ (FileStream._state s' = FileStream.done
         ∧ FileStream.offset s' = FileStream.offset s
         ∧ sent s' = sent s
         ∧ FileStream._reads s' = []).
Proof.
  split_and!; [vm_compute; reflexivity .. | |].
  - intros messageSize uuid f evs.
    by destruct (guarded_run messageSize uuid f evs) as (_ & Hd & _).
  - apply done_is_final.
Qed.

(** C3 fails on the code: in a batch of three files in which the read of
    the second file fails, the error is logged by the stream, which stays in
    'sending'; the other two streams reach 'done'; and the Dropper has
    dispatched nothing. Whatever happens next to this or any other batch
    that is not empty, the Dropper dispatches neither 'failed' nor 'done'. *)
Theorem read_failure_not_reported :
  FileStream._state <$>
    Dropper._fileStreams
      (Dropper.run 4 (Dropper.new uuids three_files) second_read_fails)
  = [FileStream.done; FileStream.sending; FileStream.done]
  ∧ FileStream.console <$>
      Dropper._fileStreams
        (Dropper.run 4 (Dropper.new uuids three_files) second_read_fails)
    = [[];
       [FileStream.ErrorIn FileStream.ReadError;
        FileStream.PassingState FileStream.sending];
       []]
  ∧ Dropper.dispatched
      (Dropper.run 4 (Dropper.new uuids three_files) second_read_fails)
    = []
  ∧ ∀ messageSize uuid_v4 file files evs,
      ("failed" ∉ Dropper.dispatched
                    (Dropper.run messageSize
                       (Dropper.new uuid_v4 (file :: files)) evs))
      ∧ ("done" ∉ Dropper.dispatched
                    (Dropper.run messageSize
                       (Dropper.new uuid_v4 (file :: files)) evs)).
Proof.
  split_and!; [vm_compute; reflexivity .. |].
  intros messageSize uuid_v4 file files evs.
  by destruct (waiting_run messageSize uuid_v4 (file :: files) evs)
    as (_ & _ & _ & _ & Hdone & Hfailed).
Qed.

(** ** The batch: one stream for each file *)

Lemma constructor_loop uuid_v4 files : ∀ d,
  let d' := foldl (Dropper.start_fileStream uuid_v4) d files in
  Dropper._fileStreams d'
  = Dropper._fileStreams d
    ++ imap (λ i f, FileStream.new
                      (uuid_v4 (length (Dropper._fileStreams d) + i)%nat) f) files
  ∧ Dropper.fileinfo d' = Dropper.fileinfo d ++ (file_info <$> files)
  ∧ Dropper.totalSize d' = Dropper.totalSize d + sum_sizes files
  ∧ Dropper.id d' = Dropper.id d.
Proof.
  induction files as [| f files IH]; intros d; cbn.
  - rewrite !app_nil_r. split_and!; [done | done | lia | done].
  - destruct (IH (Dropper.start_fileStream uuid_v4 d f)) as (-> & -> & -> & ->).
    cbn. rewrite <- !app_assoc. cbn. split_and!; [| done | lia | done].
    rewrite Nat.add_0_r. do 2 f_equal.
    apply imap_ext. intros i x _. cbn. rewrite length_app. cbn.
    do 2 f_equal. lia.
Qed.

Lemma handle_fileStreams messageSize d ev i :
  Dropper._fileStreams (Dropper.handle messageSize d ev) !! i
  = match ev with
    | Dropper.Stream j ev' =>
        if decide (j = i)
        then (λ s, FileStream.step messageSize s ev') <$> Dropper._fileStreams d !! i
        else Dropper._fileStreams d !! i
    | Dropper.Peer _ => Dropper._fileStreams d !! i
    end.
Proof.
  destruct ev as [j ev' | [data | |]]; try done.
  unfold Dropper.handle.
  destruct (Dropper._fileStreams d !! j) as [s |] eqn:Hj.
  - cbv zeta.
    destruct (decide ("done" ∈ _)) as [Hfired | Hfired]; cbn;
      (destruct (decide (j = i)) as [<- | Hji];
       [ rewrite Hj; cbn; apply list_lookup_insert_eq;
         by apply lookup_lt_Some in Hj
       | by apply list_lookup_insert_ne ]).
  - destruct (decide (j = i)) as [<- | Hji]; [| done]. by rewrite Hj.
Qed.

Lemma run_fileStreams messageSize evs : ∀ d i,
  Dropper._fileStreams (Dropper.run messageSize d evs) !! i
  = (λ s, FileStream.run messageSize s (stream_events i evs))
      <$> Dropper._fileStreams d !! i.
Proof.
  induction evs as [| ev evs IH]; intros d i.
  - cbn. by destruct (Dropper._fileStreams d !! i).
  - change (Dropper.run messageSize d (ev :: evs))
      with (Dropper.run messageSize (Dropper.step messageSize d ev) evs).
    rewrite IH. unfold Dropper.step. rewrite resume_fileStreams, handle_fileStreams.
    destruct ev as [j ev' | e]; cbn; [| done].
    case_decide; [| done].
    by destruct (Dropper._fileStreams d !! i).
Qed.

Lemma new_fields uuid_v4 files :
  Dropper._fileStreams (Dropper.new uuid_v4 files)
  = imap (λ i f, FileStream.new (uuid_v4 i) f) files
  ∧ Dropper.fileinfo (Dropper.new uuid_v4 files) = file_info <$> files
  ∧ Dropper.totalSize (Dropper.new uuid_v4 files) = sum_sizes files
  ∧ Dropper.id (Dropper.new uuid_v4 files) = None.
Proof.
  destruct (constructor_loop uuid_v4 files (Dropper.mk [] None [] 0 [] false [] []))
    as (Hs & Hi & Ht & Hid). cbn in Hs, Hi, Ht, Hid.
  unfold Dropper.new, Dropper._awaitFileStreams_resume, Dropper.constructor.
  cbn. destruct (Dropper.Promise_all _); cbn; by rewrite ?Hs, ?Hi, ?Ht, ?Hid.
Qed.

Lemma step_fields messageSize d ev :
  Dropper.fileinfo (Dropper.step messageSize d ev) = Dropper.fileinfo d
  ∧ Dropper.totalSize (Dropper.step messageSize d ev) = Dropper.totalSize d.
Proof.
  assert (∀ d', Dropper.fileinfo (Dropper._awaitFileStreams_resume d')
                = Dropper.fileinfo d'
                ∧ Dropper.totalSize (Dropper._awaitFileStreams_resume d')
                  = Dropper.totalSize d') as Hresume.
  { intros d'. unfold Dropper._awaitFileStreams_resume.
    destruct (Dropper._awaiting d'); [| done].
    by destruct (Dropper.Promise_all _). }
  unfold Dropper.step. destruct (Hresume (Dropper.handle messageSize d ev)) as [-> ->].
  destruct ev as [j ev' | [data | |]]; try done.
  unfold Dropper.handle. destruct (Dropper._fileStreams d !! j); [| done].
  cbv zeta. by destruct (decide ("done" ∈ _)).
Qed.

Lemma run_fields messageSize evs : ∀ d,
  Dropper.fileinfo (Dropper.run messageSize d evs) = Dropper.fileinfo d
  ∧ Dropper.totalSize (Dropper.run messageSize d evs) = Dropper.totalSize d
  ∧ length (Dropper._fileStreams (Dropper.run messageSize d evs))
    = length (Dropper._fileStreams d).
Proof.
  induction evs as [| ev evs IH]; intros d; [done |].
  change (Dropper.run messageSize d (ev :: evs))
    with (Dropper.run messageSize (Dropper.step messageSize d ev) evs).
  destruct (IH (Dropper.step messageSize d ev)) as (-> & -> & ->).
  destruct (step_fields messageSize d ev) as [-> ->].
  split_and!; [done | done |].
  unfold Dropper.step. rewrite resume_fileStreams.
  destruct ev as [j ev' | [data | |]]; try done.
  unfold Dropper.handle. destruct (Dropper._fileStreams d !! j); [| done].
  cbv zeta. destruct (decide ("done" ∈ _)); cbn; apply length_insert.
Qed.

Lemma run_streams messageSize uuid_v4 files evs :
  Dropper._fileStreams (Dropper.run messageSize (Dropper.new uuid_v4 files) evs)
  = imap (λ i f, FileStream.run messageSize (FileStream.new (uuid_v4 i) f)
                   (stream_events i evs)) files.
Proof.
  apply list_eq. intros i.
  rewrite run_fileStreams, list_lookup_imap.
  destruct (new_fields uuid_v4 files) as (-> & _).
  rewrite list_lookup_imap. by destruct (files !! i).
Qed.

(** X1: The description of the batch: at every moment [fileinfo] lists name,
    size and type of the files in their order, [totalSize] is the sum of
    their sizes, and there is one stream for each file. *)
Theorem batch_described messageSize uuid_v4 files evs :
  let d := Dropper.run messageSize (Dropper.new uuid_v4 files) evs in
  Dropper.fileinfo d = file_info <$> files
  ∧ Dropper.totalSize d = sum_sizes files
  ∧ length (Dropper._fileStreams d) = length files.
Proof.
  intros d.
  destruct (new_fields uuid_v4 files) as (Hs & Hi & Ht & _).
  destruct (run_fields messageSize evs (Dropper.new uuid_v4 files))
    as (Hi' & Ht' & Hlen).
  fold d in Hi', Ht', Hlen.
  rewrite Hi', Ht', Hlen, Hi, Ht, Hs, length_imap. done.
Qed.

(** X2: The streams of a Dropper do not touch one another: after any run, the
    i-th stream is the stream made for the i-th file with the i-th label,
    run on the events of that run that were its own. An event for a stream
    the batch does not have changes nothing. *)
Theorem streams_run_apart messageSize uuid_v4 files evs :
  let d := Dropper.run messageSize (Dropper.new uuid_v4 files) evs in
  Dropper._fileStreams d
  = imap (λ i f, FileStream.run messageSize (FileStream.new (uuid_v4 i) f)
                   (stream_events i evs)) files
  ∧ ∀ i ev, (length files ≤ i)%nat →
            Dropper.step messageSize d (Dropper.Stream i ev) = d.
Proof.
  intros d. split; [apply run_streams |].
  intros i ev Hi.
  assert (length (Dropper._fileStreams d) = length files) as Hlen.
  { subst d. by rewrite run_streams, length_imap. }
  unfold Dropper.step, Dropper.handle.
  rewrite lookup_ge_None_2 by lia.
  apply resume_when_settled, run_settled.
Qed.

Lemma streams_run_apart_witness :
  Dropper.step 4 (Dropper.run 4 (Dropper.new uuids three_files) second_read_fails)
    (Dropper.Stream 3 (FileStream.Fire FileStream.open true))
  = Dropper.run 4 (Dropper.new uuids three_files) second_read_fails.
Proof.
  apply (streams_run_apart 4 uuids three_files second_read_fails).
  cbn. lia.
Defined.

(** ** The batch: bytes sent against the total size *)

Lemma imap_Forall2 {A B} (P : B → A → Prop) (l : list A) : ∀ (g : nat → A → B),
  (∀ i x, P (g i x) x) → Forall2 P (imap g l) l.
Proof.
  induction l as [| x l IH]; intros g Hg; [constructor |].
  rewrite imap_cons. constructor; [apply Hg |]. apply IH. intros i y. apply Hg.
Qed.

Lemma sum_offsets_sizes (l : list FileStream.t) (files : list File.t) :
  Forall2 (λ s f, FileStream.file s = f
                  ∧ FileStream.offset s ≤ File.size f) l files →
  sum_offsets l ≤ sum_sizes files
  ∧ (sum_offsets l = sum_sizes files
     ↔ Forall (λ s, FileStream.offset s = File.size (FileStream.file s)) l).
Proof.
  induction 1 as [| s f l files [Hf Hle] _ [IHle IHeq]]; cbn.
  - split; [lia |]. split; [constructor | done].
  - subst f. split; [lia |]. rewrite Forall_cons. split.
    + intros Heq. split; [lia |]. apply IHeq. lia.
    + intros [Hs Hl]. apply IHeq in Hl. lia.
Qed.

Lemma sum_offsets_nonneg (l : list FileStream.t) :
  Forall (λ s, 0 ≤ FileStream.offset s) l → 0 ≤ sum_offsets l.
Proof. induction 1; cbn; lia. Qed.

Lemma streams_within messageSize uuid_v4 files evs :
  Forall2 (λ s f, FileStream.file s = f
                  ∧ FileStream.offset s ≤ File.size f)
    (Dropper._fileStreams
       (Dropper.run messageSize (Dropper.new uuid_v4 files) evs))
    files
  ∧ Forall (λ s, FileStream._state s = FileStream.done →
                 FileStream.offset s = File.size (FileStream.file s))
      (Dropper._fileStreams
         (Dropper.run messageSize (Dropper.new uuid_v4 files) evs)).
Proof.
  rewrite run_streams. split.
  - apply imap_Forall2. intros i f.
    destruct (guarded_run messageSize (uuid_v4 i) f (stream_events i evs))
      as (Hf & _ & _ & Hle & _).
    split; [done |]. by rewrite Hf in Hle.
  - rewrite Forall_lookup. intros i s Hi Hdone.
    apply list_lookup_imap_Some in Hi as (f & _ & ->).
    destruct (guarded_run messageSize (uuid_v4 i) f (stream_events i evs))
      as (_ & _ & _ & _ & Hd).
    rewrite Hdone in Hd. apply Hd.
Qed.

Lemma run_totalSize messageSize uuid_v4 files evs :
  Dropper.totalSize (Dropper.run messageSize (Dropper.new uuid_v4 files) evs)
  = sum_sizes files.
Proof.
  destruct (run_fields messageSize evs (Dropper.new uuid_v4 files)) as (_ & -> & _).
  by destruct (new_fields uuid_v4 files) as (_ & _ & -> & _).
Qed.

(** X3: [bytesSent] never exceeds [totalSize]; it equals [totalSize] exactly when
    every stream has its offset at the end of its file, as every stream in
    the 'done' state has; and with a maximum message size that is not
    negative it is never negative. *)
Theorem bytesSent_within_totalSize messageSize uuid_v4 files evs :
  let d := Dropper.run messageSize (Dropper.new uuid_v4 files) evs in
  Dropper.bytesSent d ≤ Dropper.totalSize d
  ∧ (Dropper.bytesSent d = Dropper.totalSize d
     ↔ Forall (λ s, FileStream.offset s = File.size (FileStream.file s))
         (Dropper._fileStreams d))
  ∧ (Forall (λ s, FileStream._state s = FileStream.done) (Dropper._fileStreams d) →
     Dropper.bytesSent d = Dropper.totalSize d)
  ∧ (0 ≤ messageSize → 0 ≤ Dropper.bytesSent d).
Proof.
  intros d. subst d. rewrite run_totalSize.
  unfold Dropper.bytesSent. rewrite bytesSent_from, Z.add_0_l.
  destruct (streams_within messageSize uuid_v4 files evs) as [Hall Hdone].
  destruct (sum_offsets_sizes _ _ Hall) as [Hle Heq].
  split_and!; [done | done | |].
  - intros Hstates. apply Heq.
    rewrite Forall_forall in Hstates, Hdone |- *.
    intros s Hs. by apply Hdone, Hstates.
  - intros Hms. apply sum_offsets_nonneg. rewrite run_streams.
    rewrite Forall_lookup. intros i s Hi.
    apply list_lookup_imap_Some in Hi as (f & _ & ->).
    destruct (sound_run messageSize f (FileStream.new (uuid_v4 i) f)
                (stream_events i evs) Hms (sound_new messageSize (uuid_v4 i) f))
      as (_ & Hoff & _).
    lia.
Qed.

Lemma bytesSent_within_totalSize_witness :
  0 ≤ 4
  ∧ 0 ≤ Dropper.bytesSent
          (Dropper.run 4 (Dropper.new uuids three_files) second_read_fails).
Proof.
  split; [lia |].
  destruct (bytesSent_within_totalSize 4 uuids three_files second_read_fails)
    as (_ & _ & _ & Hpos).
  apply Hpos. lia.
Defined.

(** ** The batch: what its observers are told *)

Lemma waiting_handle messageSize d ev :
  waiting d → waiting (Dropper.handle messageSize d ev).
Proof.
  intros (Hne & Hps & Hss & Haw & Hdone & Hfailed).
  destruct ev as [i ev | [data | |]]; cbn.
  - destruct (Dropper._fileStreams d !! i) as [s |] eqn:Hi; [| done].
    pose proof (step_handles messageSize s ev) as Hstep.
    apply handles_file in Hstep as [_ Hdisp].
    rewrite Hdisp, drop_all.
    case_decide as Hfired; [by apply elem_of_nil in Hfired |].
    split_and!; try done. cbn. apply Forall_insert; [done |].
    rewrite Hdisp. rewrite Forall_forall in Hss. apply Hss.
    by apply list_elem_of_lookup_2 in Hi.
  - split_and!; try done; cbn; rewrite elem_of_app, list_elem_of_singleton;
      intros [H | H]; try done; discriminate H.
  - split_and!; try done; cbn; rewrite elem_of_app, list_elem_of_singleton;
      intros [H | H]; try done; discriminate H.
  - split_and!; try done; cbn; rewrite elem_of_app, list_elem_of_singleton;
      intros [H | H]; try done; discriminate H.
Qed.

Lemma handle_dispatched messageSize d ev :
  Dropper.dispatched (Dropper.handle messageSize d ev)
  = Dropper.dispatched d ++ option_list (relayed ev)
  ∧ Dropper._awaiting (Dropper.handle messageSize d ev) = Dropper._awaiting d.
Proof.
  destruct ev as [j ev' | [data | |]]; try done.
  unfold Dropper.handle. destruct (Dropper._fileStreams d !! j).
  - cbv zeta. destruct (decide ("done" ∈ _)); cbn; by rewrite app_nil_r.
  - cbn. by rewrite app_nil_r.
Qed.

(** A Dropper that is waiting for streams, or is no longer waiting at all,
    dispatches for an event what its listener for that event dispatches. *)
Lemma step_dispatched messageSize d ev :
  waiting d ∨ Dropper._awaiting d = false →
  Dropper.dispatched (Dropper.step messageSize d ev)
  = Dropper.dispatched d ++ option_list (relayed ev)
  ∧ (waiting (Dropper.step messageSize d ev)
     ∨ Dropper._awaiting (Dropper.step messageSize d ev) = false).
Proof.
  intros Hd. destruct (handle_dispatched messageSize d ev) as [Hdisp Haw].
  unfold Dropper.step. rewrite resume_when_settled.
  - split; [done |]. destruct Hd as [Hd | Hd].
    + left. by apply waiting_handle.
    + right. congruence.
  - intros Haw'. destruct Hd as [Hd | Hd]; [| congruence].
    apply (waiting_handle messageSize d ev) in Hd as (Hne & Hps & _).
    by apply Promise_all_pending.
Qed.

Lemma run_dispatched messageSize evs : ∀ d,
  waiting d ∨ Dropper._awaiting d = false →
  Dropper.dispatched (Dropper.run messageSize d evs)
  = Dropper.dispatched d ++ omap relayed evs.
Proof.
  induction evs as [| ev evs IH]; intros d Hd.
  - cbn. by rewrite app_nil_r.
  - change (Dropper.run messageSize d (ev :: evs))
      with (Dropper.run messageSize (Dropper.step messageSize d ev) evs).
    destruct (step_dispatched messageSize d ev Hd) as [Hdisp Hd'].
    rewrite IH, Hdisp by done. rewrite <- app_assoc. f_equal.
    cbn. by destruct (relayed ev).
Qed.

Lemma new_dispatched uuid_v4 files :
  Dropper.dispatched (Dropper.new uuid_v4 files)
  = match files with
    | [] => ["done"]
    | _ :: _ => []
    end
  ∧ (waiting (Dropper.new uuid_v4 files)
     ∨ Dropper._awaiting (Dropper.new uuid_v4 files) = false).
Proof.
  destruct files as [| f files]; [split; [done | by right] |].
  pose proof (waiting_run 0 uuid_v4 (f :: files) []) as Hw.
  change (Dropper.run 0 ?d []) with d in Hw. specialize (Hw ltac:(done)).
  split; [| by left].
  destruct (constructor_fields uuid_v4 (f :: files)
              (Dropper.mk [] None [] 0 [] false [] [])) as (Hd & _).
  change (Dropper.dispatched (Dropper.mk [] None [] 0 [] false [] [])) with (@nil string) in Hd.
  destruct Hw as (_ & _ & _ & Haw & _).
  unfold Dropper.new, Dropper._awaitFileStreams_resume in Haw |- *.
  change (Dropper._awaiting (Dropper.constructor uuid_v4 (f :: files))) with true in *.
  cbv iota in Haw |- *.
  destruct (Dropper.Promise_all _); [exact Hd | discriminate Haw | discriminate Haw].
Qed.

(** X4: What the observers of a Dropper are told, in order: 'done' at once when
    the batch is empty, and then for each event of the peer the event its
    listener dispatches; the events of the streams add nothing. *)
Theorem dispatched_events messageSize uuid_v4 files evs :
  Dropper.dispatched (Dropper.run messageSize (Dropper.new uuid_v4 files) evs)
  = match files with
    | [] => ["done"]
    | _ :: _ => []
    end ++ omap relayed evs.
Proof.
  destruct (new_dispatched uuid_v4 files) as [Hnew Hd].
  by rewrite run_dispatched, Hnew.
Qed.

Lemma run_id messageSize evs : ∀ d,
  Dropper.id (Dropper.run messageSize d evs)
  = match last (omap registration evs) with
    | Some data => Some data
    | None => Dropper.id d
    end.
Proof.
  induction evs as [| ev evs IH]; intros d; [done |].
  change (Dropper.run messageSize d (ev :: evs))
    with (Dropper.run messageSize (Dropper.step messageSize d ev) evs).
  rewrite IH.
  assert (Dropper.id (Dropper.step messageSize d ev)
          = match registration ev with
            | Some data => Some data
            | None => Dropper.id d
            end) as ->.
  { unfold Dropper.step, Dropper._awaitFileStreams_resume.
    assert (Dropper.id (Dropper.handle messageSize d ev)
            = match registration ev with
              | Some data => Some data
              | None => Dropper.id d
              end) as <-.
    { destruct ev as [j ev' | [data | |]]; try done.
      unfold Dropper.handle. destruct (Dropper._fileStreams d !! j); [| done].
      cbv zeta. by destruct (decide ("done" ∈ _)). }
    destruct (Dropper._awaiting _); [| done].
    by destruct (Dropper.Promise_all _). }
  cbn [omap list_omap]. fold (omap registration evs).
  destruct (registration ev) as [data |]; [| done].
  rewrite last_cons. by destruct (last (omap registration evs)).
Qed.

(** X5: [id] is undefined until the peer is registered, and is from then on the
    identifier of the latest 'registered' event. *)
Theorem id_is_latest_registration messageSize uuid_v4 files evs :
  Dropper.id (Dropper.run messageSize (Dropper.new uuid_v4 files) evs)
  = last (omap registration evs).
Proof.
  rewrite run_id. destruct (new_fields uuid_v4 files) as (_ & _ & _ & ->).
  by destruct (last (omap registration evs)).
Qed.

(** ** The batch: the labels of the channels *)

Lemma handles_label messageSize s ev s' :
  handles messageSize s ev s' →
  FileStream.label s' = FileStream.label s
  ∧ DataChannel.label (FileStream._dataChannel s')
    = DataChannel.label (FileStream._dataChannel s).
Proof. by destruct 1. Qed.

Lemma run_label messageSize evs : ∀ s,
  FileStream.label (FileStream.run messageSize s evs) = FileStream.label s
  ∧ DataChannel.label (FileStream._dataChannel (FileStream.run messageSize s evs))
    = DataChannel.label (FileStream._dataChannel s).
Proof.
  induction evs as [| ev evs IH]; intros s; [done |].
  change (FileStream.run messageSize s (ev :: evs))
    with (FileStream.run messageSize (FileStream.step messageSize s ev) evs).
  destruct (IH (FileStream.step messageSize s ev)) as [-> ->].
  by apply (handles_label messageSize s ev), step_handles.
Qed.

(** X6: Every stream keeps the label it was made with, which is the label of
    its channel: the i-th stream has the i-th identifier drawn. When the
    identifiers drawn are distinct, no two channels of a Dropper ever have
    the same label. *)
Theorem labels_distinct messageSize uuid_v4 files evs :
  Inj (=) (=) uuid_v4 →
  let d := Dropper.run messageSize (Dropper.new uuid_v4 files) evs in
  FileStream.label <$> Dropper._fileStreams d = uuid_v4 <$> seq 0 (length files)
  ∧ (λ s, DataChannel.label (FileStream._dataChannel s)) <$> Dropper._fileStreams d
    = FileStream.label <$> Dropper._fileStreams d
  ∧ NoDup ((λ s, DataChannel.label (FileStream._dataChannel s))
             <$> Dropper._fileStreams d).
Proof.
  intros Hinj d. subst d. rewrite run_streams.
  assert (∀ (g : FileStream.t → string),
            (∀ evs' s, g (FileStream.run messageSize s evs') = g s) →
            (∀ i f, g (FileStream.new (uuid_v4 i) f) = uuid_v4 i) →
            g <$> imap (λ i f, FileStream.run messageSize
                                 (FileStream.new (uuid_v4 i) f)
                                 (stream_events i evs)) files
            = uuid_v4 <$> seq 0 (length files)) as Hlabels.
  { intros g Hrun Hnew. rewrite fmap_imap, <- imap_seq_0.
    apply imap_ext. intros i f _. cbn. by rewrite Hrun, Hnew. }
  rewrite !Hlabels; try done.
  - split_and!; [done | done |]. apply NoDup_fmap_2; [done | apply NoDup_seq].
  - intros evs' s. apply run_label.
  - intros evs' s. apply run_label.
Qed.

Lemma uuids_inj : Inj (=) (=) uuids.
Proof.
  intros i j H. unfold uuids in H.
  apply (inj (String.app "uuid-")) in H. by apply (inj pretty) in H.
Qed.

Lemma labels_distinct_witness :
  NoDup ((λ s, DataChannel.label (FileStream._dataChannel s))
           <$> Dropper._fileStreams
                 (Dropper.run 4 (Dropper.new uuids three_files) second_read_fails)).
Proof.
  apply (labels_distinct 4 uuids three_files second_read_fails uuids_inj).
Defined.

(** ** The pieces a file is sent in *)

Lemma payloads_snoc l m :
  payloads (l ++ [m])
  = payloads l ++ match m with
                  | Binary b => [b]
                  | Text _ => []
                  end.
Proof. unfold payloads. rewrite omap_app. by destruct m. Qed.

Lemma cut_at_new messageSize uuid f : cut_at messageSize f 0 (FileStream.new uuid f).
Proof. split_and!; try done. by left. Qed.

Lemma cut_at_handles messageSize f s ev s' :
  0 < messageSize →
  (∃ k, cut_at messageSize f k s) → handles messageSize s ev s' →
  ∃ k, cut_at messageSize f k s'.
Proof.
  intros Hms (k & Hf & Hps & Hk & Hst) Hstep.
  pose proof (Nat2Z.is_nonneg (length (File.bytes f))) as Hsize.
  fold (File.size f) in Hsize.
  destruct Hstep as [e Hst' | e Hst' Hge | e Hst' | e accepts Hst' Hlt
                    | e accepts Hst' | n blob Hn | n blob Hn | n blob Hn | ev Hn].
  - (* the fileinfo message *)
    rewrite Hst' in Hst. destruct Hst as (-> & Hoff & Hrd).
    exists 0%nat. unfold cut_at; cbn -[payloads chunk Z.mul Z.min Z.of_nat seq]; split_and!; try done.
    + by rewrite payloads_snoc, Hps, app_nil_r.
    + rewrite Hoff. lia.
  - (* the done message *)
    rewrite Hst' in Hst. destruct Hst as [Hoff Hrd].
    exists k. unfold cut_at; cbn -[payloads chunk Z.mul Z.min Z.of_nat seq]; split_and!; try done.
    by rewrite payloads_snoc, Hps, app_nil_r.
  - (* a control message is refused *)
    exists k. by split_and!.
  - (* a chunk is read *)
    rewrite Hst' in Hst. destruct Hst as [Hoff Hrd].
    rewrite Hf in *.
    assert (FileStream.offset s = Z.of_nat k * messageSize) as Hoff' by lia.
    exists k. unfold cut_at; cbn -[payloads chunk Z.mul Z.min Z.of_nat seq]; split_and!; try done.
    + subst end_. rewrite Hf, Hoff'. f_equal. lia.
    + lia.
    + right. rewrite Hrd. cbn. subst blob end_. unfold chunk.
      rewrite Hf, Hoff'. do 3 f_equal. lia.
  - (* an event is passed *)
    exists k. by split_and!.
  - (* the chunk is sent *)
    destruct (FileStream._state s) eqn:Hst';
      try (destruct Hst as (_ & _ & Hrd) || destruct Hst as (_ & Hrd);
           rewrite Hrd in Hn; by destruct n).
    destruct Hst as (Hoff & Hlt & [Hrd | Hrd]); rewrite Hrd in Hn;
      [by destruct n |].
    destruct n as [| n]; [| by destruct n]. injection Hn as <-.
    exists (S k). unfold cut_at; cbn -[payloads chunk Z.mul Z.min Z.of_nat seq]; split_and!; try done.
    + change (sent (FileStream.with_reads ?r s)) with (sent s).
      rewrite payloads_snoc, Hps, seq_S, fmap_app. done.
    + right. lia.
    + rewrite Hoff. f_equal. lia.
    + by rewrite Hrd.
  - (* the chunk is refused *)
    destruct (FileStream._state s) eqn:Hst';
      try (destruct Hst as (_ & _ & Hrd) || destruct Hst as (_ & Hrd);
           rewrite Hrd in Hn; by destruct n).
    destruct Hst as (Hoff & Hlt & [Hrd | Hrd]); rewrite Hrd in Hn;
      [by destruct n |].
    destruct n as [| n]; [| by destruct n].
    exists k. unfold cut_at; cbn -[payloads chunk Z.mul Z.min Z.of_nat seq]; split_and!; try done. rewrite Hst'.
    split_and!; [done | done |]. left. by rewrite Hrd.
  - (* the read fails *)
    destruct (FileStream._state s) eqn:Hst';
      try (destruct Hst as (_ & _ & Hrd) || destruct Hst as (_ & Hrd);
           rewrite Hrd in Hn; by destruct n).
    destruct Hst as (Hoff & Hlt & [Hrd | Hrd]); rewrite Hrd in Hn;
      [by destruct n |].
    destruct n as [| n]; [| by destruct n].
    exists k. unfold cut_at; cbn -[payloads chunk Z.mul Z.min Z.of_nat seq]; split_and!; try done. rewrite Hst'.
    split_and!; [done | done |]. left. by rewrite Hrd.
  - by exists k.
Qed.

Lemma cut_at_run messageSize uuid f evs :
  0 < messageSize →
  ∃ k, cut_at messageSize f k
         (FileStream.run messageSize (FileStream.new uuid f) evs).
Proof.
  intros Hms.
  assert (∃ k, cut_at messageSize f k (FileStream.new uuid f)) as Hnew
    by (exists 0%nat; apply cut_at_new).
  revert Hnew. generalize (FileStream.new uuid f).
  induction evs as [| ev evs IH]; intros s Hs; [done |].
  cbn. apply IH. eapply cut_at_handles; eauto using step_handles.
Qed.

(** The i-th piece, in the bytes of the file: at most [messageSize] bytes
    from byte [i * messageSize] on. *)
Lemma chunk_bytes messageSize f (i : nat) :
  0 < messageSize → Z.of_nat i * messageSize < File.size f →
  chunk messageSize f i
  = take (Z.to_nat messageSize)
      (drop (i * Z.to_nat messageSize) (File.bytes f))
  ∧ Z.of_nat (length (chunk messageSize f i))
    = Z.min messageSize (File.size f - Z.of_nat i * messageSize).
Proof.
  intros Hms Hi. unfold chunk.
  rewrite slice_length, slice_within by lia. split; [| lia].
  replace (Z.to_nat (Z.of_nat i * messageSize)) with (i * Z.to_nat messageSize)%nat
    by lia.
  unfold File.size in *.
  destruct (Z.min_spec ((Z.of_nat i + 1) * messageSize)
              (Z.of_nat (length (File.bytes f)))) as [[Hlt ->] | [Hge ->]].
  - f_equal. lia.
  - rewrite !take_ge; [done | |]; rewrite length_drop; lia.
Qed.

Lemma concat_chunks messageSize f (k : nat) :
  0 < messageSize →
  k = 0%nat ∨ (Z.of_nat k - 1) * messageSize < File.size f →
  concat (chunk messageSize f <$> seq 0 k)
  = take (Z.to_nat (Z.min (Z.of_nat k * messageSize) (File.size f)))
      (File.bytes f).
Proof.
  intros Hms. induction k as [| k IH]; intros Hk.
  - cbn. by rewrite Z.min_l by (unfold File.size; lia).
  - rewrite seq_S, fmap_app, concat_app. cbn. rewrite app_nil_r.
    assert (Z.of_nat k * messageSize < File.size f) as Hlt by lia.
    rewrite IH by (destruct k; [by left | right; lia]).
    rewrite Z.min_l by lia. unfold chunk.
    rewrite slice_extends by lia. do 2 f_equal. lia.
Qed.

(** X7: The payloads are the file cut at every [messageSize] bytes: the i-th
    payload handed to the channel is the bytes of the file from byte
    [i * messageSize] on, [messageSize] of them or as many as are left; no
    payload is empty; and a stream in 'done' has handed over the size of the
    file divided by [messageSize], rounded up, payloads. *)
Theorem payloads_cut_the_file messageSize uuid f evs :
  0 < messageSize →
  let s := FileStream.run messageSize (FileStream.new uuid f) evs in
  (∀ (i : nat) p,
     payloads (sent s) !! i = Some p →
     p = take (Z.to_nat messageSize)
           (drop (i * Z.to_nat messageSize) (File.bytes f))
     ∧ Z.of_nat (length p)
       = Z.min messageSize (File.size f - Z.of_nat i * messageSize)
     ∧ 0 < Z.of_nat (length p))
  ∧ (FileStream._state s = FileStream.done →
     Z.of_nat (length (payloads (sent s)))
     = (File.size f + messageSize - 1) / messageSize).
Proof.
  intros Hms s.
  destruct (cut_at_run messageSize uuid f evs Hms) as (k & Hf & Hps & Hk & Hst).
  fold s in Hf, Hps, Hk, Hst. rewrite Hps. split.
  - intros i p Hi. rewrite list_lookup_fmap in Hi.
    destruct (seq 0 k !! i) as [j |] eqn:Hj; [| done].
    apply lookup_seq in Hj as [-> Hik]. cbn in Hi. injection Hi as <-.
    assert (Z.of_nat i * messageSize < File.size f) as Hlt by nia.
    destruct (chunk_bytes messageSize f i Hms Hlt) as [Hbytes Hlen].
    split_and!; [done | done | lia].
  - intros Hdone. rewrite Hdone in Hst. destruct Hst as [Hoff _].
    destruct (guarded_run messageSize uuid f evs) as (_ & _ & _ & _ & Hd).
    fold s in Hd. rewrite Hdone, Hf in Hd. destruct Hd as [Hend _].
    rewrite length_fmap, length_seq.
    destruct Hk as [-> | Hk].
    + symmetry. apply Z.div_small. cbn in Hoff. unfold File.size in *. lia.
    + apply Z.div_unique
        with (r := File.size f + messageSize - 1 - messageSize * Z.of_nat k); lia.
Qed.

Lemma payloads_cut_the_file_witness :
  0 < 2
  ∧ payloads (sent (FileStream.run 2 (FileStream.new "u" five_bytes) (fault_free 6)))
    !! 2%nat = Some [Byte.x05]
  ∧ [Byte.x05] = take (Z.to_nat 2) (drop (2 * Z.to_nat 2) (File.bytes five_bytes))
  ∧ Z.of_nat (length (payloads (sent (FileStream.run 2 (FileStream.new "u" five_bytes)
                                        (fault_free 6)))))
    = (File.size five_bytes + 2 - 1) / 2.
Proof.
  destruct (payloads_cut_the_file 2 "u" five_bytes (fault_free 6)) as [Hith Hcount];
    [lia |].
  split_and!.
  - lia.
  - reflexivity.
  - apply (Hith 2%nat [Byte.x05]). reflexivity.
  - apply Hcount. reflexivity.
Defined.

(** X8: [offset] against what the channel has been handed: outside 'sending'
    it is the number of bytes handed over; in 'sending' it is ahead of
    that number by the chunk whose read was started, which is at least one
    byte and at most [messageSize] bytes, whether that read is still under
    way or was lost. *)
Theorem offset_counts_handed_bytes messageSize uuid f evs :
  0 < messageSize →
  let s := FileStream.run messageSize (FileStream.new uuid f) evs in
  let handed := Z.of_nat (length (concat (payloads (sent s)))) in
  handed ≤ FileStream.offset s ≤ handed + messageSize
  ∧ (FileStream._state s ≠ FileStream.sending → FileStream.offset s = handed)
  ∧ (FileStream._state s = FileStream.sending → handed < FileStream.offset s).
Proof.
  intros Hms s handed.
  destruct (cut_at_run messageSize uuid f evs Hms) as (k & Hf & Hps & Hk & Hst).
  fold s in Hf, Hps, Hk, Hst.
  assert (handed = Z.min (Z.of_nat k * messageSize) (File.size f)) as ->.
  { subst handed. rewrite Hps, concat_chunks by done.
    rewrite length_take. unfold File.size. lia. }
  pose proof (Nat2Z.is_nonneg (length (File.bytes f))) as Hsize.
  fold (File.size f) in Hsize.
  destruct (FileStream._state s).
  - destruct Hst as (-> & -> & _). split_and!; intros; (done || lia).
  - destruct Hst as [-> _]. split_and!; intros; (done || lia).
  - destruct Hst as (-> & Hlt & _). split_and!; intros; (done || lia).
  - destruct Hst as [-> _]. split_and!; intros; (done || lia).
Qed.

Lemma offset_counts_handed_bytes_witness :
  0 < 2
  ∧ Z.of_nat (length (concat (payloads (sent five_bytes_reading))))
    < FileStream.offset five_bytes_reading.
Proof.
  split; [lia |].
  destruct (offset_counts_handed_bytes 2 "u" five_bytes
              [FileStream.Fire FileStream.open true;
               FileStream.Fire FileStream.bufferedamountlow true])
    as (_ & _ & Hahead); [lia |].
  apply Hahead. reflexivity.
Defined.

(** ** The state of a stream and what its channel has been handed *)

Lemma count_done_cons m l :
  count_done (m :: l)
  = ((if is_done_message m then 1 else 0) + count_done l)%nat.
Proof.
  unfold count_done. rewrite filter_cons.
  destruct (is_done_message m); by case_decide.
Qed.

Lemma is_done_message_true m : is_done_message m = true ↔ m = done_message.
Proof.
  destruct m as [t | b]; cbn.
  - rewrite bool_decide_eq_true. unfold done_message.
    split; [by intros -> | congruence].
  - split; discriminate.
Qed.

Lemma count_done_none l : count_done l = 0%nat ↔ done_message ∉ l.
Proof.
  induction l as [| m l IH].
  - split; [intros _; apply not_elem_of_nil | done].
  - rewrite count_done_cons, not_elem_of_cons, <- IH.
    destruct (is_done_message m) eqn:Hm.
    + apply is_done_message_true in Hm as ->. split; [lia | by intros [? _]].
    + split; [| lia]. intros Hl. split; [| lia].
      intros <-. by rewrite (proj2 (is_done_message_true _)) in Hm.
Qed.

Lemma count_done_some l : (0 < count_done l)%nat → done_message ∈ l.
Proof.
  induction l as [| m l IH]; [cbn; lia |].
  rewrite count_done_cons, elem_of_cons.
  destruct (is_done_message m) eqn:Hm.
  - apply is_done_message_true in Hm as ->. by left.
  - intros Hl. right. apply IH. lia.
Qed.

Lemma started_handles messageSize s ev s' :
  handles messageSize s ev s' →
  (FileStream._state s = FileStream.fileinfo ↔ sent s = []) →
  (FileStream._state s' = FileStream.fileinfo ↔ sent s' = []).
Proof.
  intros Hstep Hs.
  destruct Hstep as [e Hst | e Hst Hge | e Hst | e accepts Hst Hlt
                    | e accepts Hst | n blob Hn | n blob Hn | n blob Hn | ev Hn];
    try done; cbn.
  - split; [done |]. intros H. by apply app_nil in H as [_ H].
  - split; [done |]. intros H. by apply app_nil in H as [_ H].
  - rewrite <- Hs, Hst. done.
  - split; [done |]. intros H. by apply app_nil in H as [_ H].
Qed.

(** X9: The state of a stream tells what its channel has been handed, whatever
    the maximum message size and whatever went wrong: the stream is in
    'fileinfo' exactly as long as the channel has been handed nothing, and
    in 'done' exactly when the done message is among the messages handed
    over. *)
Theorem state_reflects_channel messageSize uuid f evs :
  let s := FileStream.run messageSize (FileStream.new uuid f) evs in
  (FileStream._state s = FileStream.fileinfo ↔ sent s = [])
  ∧ (FileStream._state s = FileStream.done ↔ done_message ∈ sent s).
Proof.
  intros s. split.
  - subst s.
    assert (FileStream._state (FileStream.new uuid f) = FileStream.fileinfo
            ↔ sent (FileStream.new uuid f) = []) as Hnew by done.
    revert Hnew. generalize (FileStream.new uuid f).
    induction evs as [| ev evs IH]; intros s Hs; [done |].
    cbn. apply IH. eapply started_handles; eauto using step_handles.
  - destruct (guarded_run messageSize uuid f evs) as (_ & _ & _ & _ & Hd).
    fold s in Hd. destruct (FileStream._state s).
    + apply count_done_none in Hd. split; [done | by intros ?].
    + apply count_done_none in Hd. split; [done | by intros ?].
    + apply count_done_none in Hd. split; [done | by intros ?].
    + destruct Hd as [_ Hd]. split; [intros _ | done].
      apply count_done_some. lia.
Qed.

Lemma state_reflects_channel_witness :
  done_message
  ∈ sent (FileStream.run 2 (FileStream.new "u" five_bytes) (fault_free 6)).
Proof.
  apply (state_reflects_channel 2 "u" five_bytes (fault_free 6)).
  reflexivity.
Defined.

(** ** A batch without faults *)

(** X10: When the events of each stream are, in whatever way they are
    interleaved with those of the other streams, a fault-free run long
    enough for its file, every stream ends in 'done' with the payloads it
    handed over making up its file, and [bytesSent] has reached
    [totalSize]. *)
Theorem fault_free_batch_completes messageSize uuid_v4 files evs :
  0 < messageSize →
  (∀ i f, files !! i = Some f →
          stream_events i evs = fault_free (S (length (File.bytes f)))) →
  let d := Dropper.run messageSize (Dropper.new uuid_v4 files) evs in
  Forall (λ s, FileStream._state s = FileStream.done
               ∧ concat (payloads (sent s)) = File.bytes (FileStream.file s))
    (Dropper._fileStreams d)
  ∧ Dropper.bytesSent d = Dropper.totalSize d.
Proof.
  intros Hms Hevs d.
  assert (Forall (λ s, FileStream._state s = FileStream.done
                       ∧ concat (payloads (sent s))
                         = File.bytes (FileStream.file s))
            (Dropper._fileStreams d)) as Hall.
  { subst d. rewrite run_streams, Forall_lookup. intros i s Hi.
    apply list_lookup_imap_Some in Hi as (f & Hf & ->).
    rewrite (Hevs i f Hf).
    pose proof (fault_free_done messageSize (uuid_v4 i) f Hms) as Hdone.
    split; [done |].
    destruct (cut_at_run messageSize (uuid_v4 i) f
                (fault_free (S (length (File.bytes f)))) Hms)
      as (k & Hfile & Hps & Hk & Hst).
    destruct (guarded_run messageSize (uuid_v4 i) f
                (fault_free (S (length (File.bytes f)))))
      as (_ & _ & _ & _ & Hd).
    cbv zeta in Hd. rewrite Hdone in Hst, Hd. rewrite Hfile in Hd |- *.
    destruct Hst as [Hoff _]. destruct Hd as [Hend _].
    rewrite Hps, concat_chunks by done. rewrite <- Hoff, Hend.
    apply take_ge. unfold File.size. lia. }
  split; [done |].
  subst d. rewrite run_totalSize.
  unfold Dropper.bytesSent. rewrite bytesSent_from, Z.add_0_l.
  destruct (streams_within messageSize uuid_v4 files evs) as [Hwithin Hdone].
  apply (sum_offsets_sizes _ _ Hwithin).
  rewrite Forall_forall in Hall, Hdone |- *.
  intros s Hs. apply Hdone; [done |]. by apply Hall.
Qed.

Lemma fault_free_batch_completes_witness :
  0 < 2
  ∧ Dropper.bytesSent (Dropper.run 2 (Dropper.new uuids two_files) interleaved)
    = Dropper.totalSize (Dropper.run 2 (Dropper.new uuids two_files) interleaved).
Proof.
  split; [lia |].
  apply (fault_free_batch_completes 2 uuids two_files interleaved); [lia |].
  intros [| [| i]] f Hf; cbn in Hf; try discriminate Hf;
    injection Hf as <-; reflexivity.
Defined.
